(** * EnhancedABLinksSolver: the link-resolution engine of [ab_links_solver.py]

    A shallow embedding of the service classifier, the retrying fetcher, the
    two extraction strategies, the orchestrator [solve_single], the batch
    scheduler [solve_batch], [export_results] and the resolution loop of the
    command line, followed by the properties of the specification that
    concern them and by further properties of the code.

    Conventions.
    - A Python [str] is a list of characters; a character is a code point
      below 256 (type [ascii]).  On that range [\d] is [0-9], [\s] is the set
      listed in [is_space], and case folding is the ASCII one.
    - Python [int] is [Z]; [range(n)] is empty for [n <= 0].
    - The network, [random.choice] and [time.time] are scripted by the
      [World]; effects are threaded through the monad [M], whose error
      component carries the instances of Python's [Exception].  Calls to
      the logger change nothing the module reads back and are left out.
    - [self.method(...)] is late-bound: a function that calls a method of
      the instance takes it as a section variable, and the solver as shipped
      is the composition at the end of the definitions. *)

From Stdlib Require Import Ascii String.
From stdpp Require Import gmap strings list sorting pretty.

Open Scope Z_scope.
Open Scope list_scope.

(** ** Text *)

Abbreviation text := (list ascii).

Definition str (s : string) : text := list_ascii_of_string s.

Definition code (c : ascii) : nat := nat_of_ascii c.

Definition in_range (lo hi x : ascii) : bool :=
  (code lo <=? code x)%nat && (code x <=? code hi)%nat.

Definition is_upper (c : ascii) : bool := in_range "A" "Z" c.
Definition is_lower (c : ascii) : bool := in_range "a" "z" c.

(** [str.lower] on one character. *)
Definition lower (c : ascii) : ascii :=
  if is_upper c then ascii_of_nat (code c + 32) else c.

(** The other case of a cased character, the character itself otherwise. *)
Definition swapcase (c : ascii) : ascii :=
  if is_upper c then ascii_of_nat (code c + 32)
  else if is_lower c then ascii_of_nat (code c - 32)
  else c.

Definition is_digit (c : ascii) : bool := in_range "0" "9" c.

(** [\s] for a [str] pattern: TAB..CR, FS..US, space, NEL and NBSP. *)
Definition is_space (c : ascii) : bool :=
  let n := code c in
  ((9 <=? n) && (n <=? 13) || (28 <=? n) && (n <=? 32) || (n =? 133) || (n =? 160))%nat.

(** ** Regular expressions, as [re] runs them

    Only the constructs of the patterns in the module are needed: character
    sets, concatenation, greedy [?], [+] and [*].  The matcher is the
    backtracking one, in continuation-passing style, so that the first
    success is the one [re] reports. *)

Inductive cset : Type :=
  | CLit (c : ascii)              (* a literal character *)
  | CDigit                        (* \d *)
  | CSpace                        (* \s *)
  | CDot                          (* . (no DOTALL) *)
  | CRange (lo hi : ascii)        (* lo-hi inside [...] *)
  | CUnion (a b : cset)           (* members of one [...] *)
  | CNot (a : cset).              (* [^...] *)

Fixpoint cset_mem (ic : bool) (cs : cset) (x : ascii) : bool :=
  match cs with
  | CLit c => if ic then bool_decide (lower x = lower c) else bool_decide (x = c)
  | CDigit => is_digit x
  | CSpace => is_space x
  | CDot => negb (bool_decide (x = "010"%char))
  | CRange lo hi =>
      in_range lo hi x || (ic && in_range lo hi (swapcase x))
  | CUnion a b => cset_mem ic a x || cset_mem ic b x
  | CNot a => negb (cset_mem ic a x)
  end.

Inductive regex : Type :=
  | Eps
  | Chr (cs : cset)
  | Seq (a b : regex)
  | Alt (a b : regex)
  | Star (a : regex).

Definition Opt (a : regex) : regex := Alt a Eps.
Definition Plus (a : regex) : regex := Seq a (Star a).

(** A literal run of characters, followed by [r]. *)
Fixpoint lit_then (w : text) (r : regex) : regex :=
  match w with
  | [] => r
  | c :: w' => Seq (Chr (CLit c)) (lit_then w' r)
  end.

Definition lit (w : string) : regex := lit_then (str w) Eps.

Definition or_else {A} (x y : option A) : option A :=
  match x with Some _ => x | None => y end.

Section Matcher.
Context {A : Type}.
Variable ic : bool.   (* re.IGNORECASE *)

(** [exec r s k]: match [r] at the head of [s], then continue with [k] on
    what is left; alternatives are tried in [re]'s priority order.  A
    repetition runs again only when the last round consumed input. *)
Fixpoint exec (r : regex) (s : text) (k : text -> option A) : option A :=
  match r with
  | Eps => k s
  | Chr cs =>
      match s with
      | x :: s' => if cset_mem ic cs x then k s' else None
      | [] => None
      end
  | Seq a b => exec a s (fun s' => exec b s' k)
  | Alt a b => or_else (exec a s k) (exec b s k)
  | Star a =>
      (fix star (fuel : nat) (s : text) : option A :=
         match fuel with
         | O => k s
         | S fuel' =>
             or_else
               (exec a s (fun s' =>
                  if (length s' <? length s)%nat then star fuel' s' else None))
               (k s)
         end) (length s) s
  end.
End Matcher.

(** [re.match(p, s, flags)]: the unmatched rest of [s], when [p] matches at
    the start. *)
Definition re_match (ic : bool) (p : regex) (s : text) : option text :=
  exec ic p s Some.

Definition matches (ic : bool) (p : regex) (s : text) : bool :=
  bool_decide (is_Some (re_match ic p s)).

(** A pattern [pre(grp)post] with one capturing group. *)
Record gpattern : Type := GPattern { g_pre : regex; g_grp : regex; g_post : regex }.

(** The text of group 1 when the pattern matches at the start of [s]. *)
Definition match_group1 (ic : bool) (p : gpattern) (s : text) : option text :=
  exec ic (g_pre p) s (fun s1 =>
    exec ic (g_grp p) s1 (fun s2 =>
      exec ic (g_post p) s2 (fun _ =>
        Some (take (length s1 - length s2)%nat s1)))).

(** [re.search(p, s).group(1)]: the leftmost start position that matches. *)
Fixpoint search_group1 (ic : bool) (p : gpattern) (s : text) : option text :=
  match match_group1 ic p s with
  | Some g => Some g
  | None =>
      match s with
      | [] => None
      | _ :: s' => search_group1 ic p s'
      end
  end.

(** ** SolveResult *)

Definition Time := Z.   (* a reading of time.time(), in clock ticks *)

Record SolveResult : Type := mkSolveResult {
  original_url : text;
  service : text;
  solved_url : option text;
  success : bool;
  error : option text;
  response_time : option Time
}.

(** The constructor call of the source: [error] and [response_time] keep
    their default [None] unless given. *)
Definition SolveResult_new (u svc : text) (solved : option text) (ok : bool)
    (err : option text) : SolveResult :=
  mkSolveResult u svc solved ok err None.

(** ** Service patterns and [detect_service] *)

(** [https?://(?:www\.)?] followed by [r]. *)
Definition url_head (r : regex) : regex :=
  lit_then (str "http")
    (Seq (Opt (Chr (CLit "s")))
       (lit_then (str "://")
          (Seq (Opt (lit "www.")) r))).

Definition digits_slash (r : regex) : regex :=
  Seq (Plus (Chr CDigit)) (Seq (Chr (CLit "/")) r).

Definition any1 : regex := Plus (Chr CDot).   (* (.+) *)

Definition alnum : cset :=
  CUnion (CRange "A" "Z") (CUnion (CRange "a" "z") (CRange "0" "9")).

(** r'https?://(?:www\.)?adf\.ly/\d+/(.+)' *)
Definition pat_adfly_1 : regex := url_head (lit_then (str "adf.ly/") (digits_slash any1)).
(** r'https?://(?:www\.)?adfoc\.us/\d+/(.+)' *)
Definition pat_adfly_2 : regex := url_head (lit_then (str "adfoc.us/") (digits_slash any1)).
(** r'https?://(?:www\.)?linkvertise\.com/(?:\d+/)?(.+)' *)
Definition pat_linkvertise_1 : regex :=
  url_head (lit_then (str "linkvertise.com/")
              (Seq (Opt (Seq (Plus (Chr CDigit)) (Chr (CLit "/")))) any1)).
(** r'https?://(?:www\.)?link-to\.net/\d+/(.+)' *)
Definition pat_linkvertise_2 : regex := url_head (lit_then (str "link-to.net/") (digits_slash any1)).
(** r'https?://(?:www\.)?gyanilinks\.com/\d+/(.+)' *)
Definition pat_gyanilinks_1 : regex := url_head (lit_then (str "gyanilinks.com/") (digits_slash any1)).
(** r'https?://(?:www\.)?shortconnect\.com/[A-Za-z0-9]+' *)
Definition pat_shortconnect_1 : regex :=
  url_head (lit_then (str "shortconnect.com/") (Plus (Chr alnum))).

(** The dictionary [self.service_patterns], in insertion order. *)
Definition service_patterns : list (text * list regex) :=
  [ (str "adfly", [pat_adfly_1; pat_adfly_2]);
    (str "linkvertise", [pat_linkvertise_1; pat_linkvertise_2]);
    (str "gyanilinks", [pat_gyanilinks_1]);
    (str "shortconnect", [pat_shortconnect_1]) ].

Definition unknown : text := str "unknown".

(** The inner loop: [for pattern in patterns: if re.match(...): return service]. *)
Fixpoint first_match (patterns : list regex) (url : text) : bool :=
  match patterns with
  | [] => false
  | pattern :: rest =>
      if matches true pattern url then true else first_match rest url
  end.

(** The outer loop over [service_patterns.items()]. *)
Fixpoint detect_in (table : list (text * list regex)) (url : text) : text :=
  match table with
  | [] => unknown
  | (svc, patterns) :: rest =>
      if first_match patterns url then svc else detect_in rest url
  end.

Definition detect_service (url : text) : text := detect_in service_patterns url.

(** ** The world: network, randomness, clock *)

(** Instances of Python's [Exception].  [raise_for_status] raises an
    [HTTPError], which is a [RequestException], as are timeouts and
    connection errors. *)
Inductive exn : Type :=
  | RequestException (msg : text)
  | NameError (msg : text)
  | OtherException (msg : text).

(** [str(e)] *)
Definition str_exn (e : exn) : text :=
  match e with
  | RequestException m | NameError m | OtherException m => m
  end.

(** What the module reads of a [requests.Response].  A response handed
    out by [safe_request] has passed [raise_for_status], so it is truthy:
    [if not response] and [if response] test for [None] only. *)
Record Response : Type := mkResponse { r_url : text; r_text : text }.

Inductive event : Type :=
  | EvGet (url : text) (allow_redirects : bool) (user_agent : text) (timeout : Z)
  | EvSleep (seconds : Z).

(** [net k url redirects] is the outcome of the [k]-th exchange of the
    session, [raise_for_status] included; [dice] scripts [random.choice] and
    [clock] scripts [time.time].  The counters and the trace are the mutable
    part. *)
Record World : Type := mkWorld {
  net : nat -> text -> bool -> Response + exn;
  dice : nat -> nat;
  clock : nat -> Time;
  gets : nat;
  draws : nat;
  reads : nat;
  trace : list event
}.

Definition M (A : Type) : Type := World -> (A + exn) * World.

Definition ret {A} (a : A) : M A := fun w => (inl a, w).
Definition raise {A} (e : exn) : M A := fun w => (inr e, w).
Definition bind {A B} (m : M A) (f : A -> M B) : M B :=
  fun w => match m w with
           | (inl a, w') => f a w'
           | (inr e, w') => (inr e, w')
           end.

Notation "'let!' x ':=' m 'in' k" := (bind m (fun x => k))
  (at level 10, x name, m at level 100, k at level 200).
Notation "'do!' m 'in' k" := (bind m (fun _ => k))
  (at level 10, m at level 100, k at level 200).

(** [try: m  except Exception as e: h e] *)
Definition try_except {A} (m : M A) (h : exn -> M A) : M A :=
  fun w => match m w with
           | (inl a, w') => (inl a, w')
           | (inr e, w') => h e w'
           end.

(** [time.time()] *)
Definition time_time : M Time :=
  fun w => (inl (clock w (reads w)),
            mkWorld (net w) (dice w) (clock w) (gets w) (draws w) (S (reads w)) (trace w)).

(** [random.choice(pool)] *)
Definition random_choice (pool : list text) : M text :=
  fun w =>
    let w' := mkWorld (net w) (dice w) (clock w) (gets w) (S (draws w)) (reads w) (trace w) in
    match pool !! (dice w (draws w) `mod` length pool)%nat with
    | Some x => (inl x, w')
    | None => (inr (OtherException (str "Cannot choose from an empty sequence")), w')
    end.

(** [time.sleep(seconds)] *)
Definition time_sleep (seconds : Z) : M unit :=
  fun w => (inl tt,
            mkWorld (net w) (dice w) (clock w) (gets w) (draws w) (reads w)
                    (trace w ++ [EvSleep seconds])).

(** [response = self.session.get(url, **kwargs); response.raise_for_status()] *)
Definition session_get (url : text) (allow_redirects : bool) (user_agent : text)
    (timeout : Z) : M Response :=
  fun w => (net w (gets w) url allow_redirects,
            mkWorld (net w) (dice w) (clock w) (S (gets w)) (draws w) (reads w)
                    (trace w ++ [EvGet url allow_redirects user_agent timeout])).

(** ** [safe_request] *)

Definition user_agents : list text :=
  [ str "Mozilla/5.0 (Windows NT 10.0; Win64; x64) AppleWebKit/537.36";
    str "Mozilla/5.0 (Windows NT 10.0; Win64; x64; rv:109.0) Gecko/20100101 Firefox/121.0" ].

(** [range(n)] *)
Definition range (n : Z) : list Z := Z.of_nat <$> seq 0 (Z.to_nat n).

Section Fetcher.
Variable max_retries : Z.

(** One round of the [try] body: pick a client identity, default the
    timeout to 30, perform the exchange. *)
Definition attempt_once (url : text) (allow_redirects : bool) : M Response :=
  let! ua := random_choice user_agents in
  session_get url allow_redirects ua 30.

(** The [for attempt in range(self.max_retries)] loop; only a
    [RequestException] is handled, anything else propagates. *)
Fixpoint safe_request_loop (attempts : list Z) (url : text) (allow_redirects : bool)
    : M (option Response) :=
  match attempts with
  | [] => ret None
  | attempt :: rest =>
      try_except
        (let! response := attempt_once url allow_redirects in ret (Some response))
        (fun e =>
           match e with
           | RequestException _ =>
               if bool_decide (attempt = max_retries - 1) then ret None
               else do! time_sleep (2 ^ attempt) in safe_request_loop rest url allow_redirects
           | _ => raise e
           end)
  end.

Definition safe_request (url : text) (allow_redirects : bool) : M (option Response) :=
  safe_request_loop (range max_retries) url allow_redirects.
End Fetcher.

(** ** Extraction strategies *)

(** The set of the double and the single quote mark. *)
Definition quote : cset := CUnion (CLit "034") (CLit "'").

Definition ysmm_tail : regex :=
  lit_then (str "ysmm")
    (Seq (Star (Chr CSpace))
       (Seq (Chr (CLit "="))
          (Seq (Star (Chr CSpace)) (Chr quote)))).

(** The two patterns searched for the [ysmm] variable, in order.  The
    first starts with [var\s+]; both go on with [ysmm\s*=\s*], a quote mark
    (double or single), the group of one or more characters that are not
    quote marks, and a quote mark. *)
Definition ysmm_patterns : list gpattern :=
  [ GPattern (lit_then (str "var") (Seq (Plus (Chr CSpace)) ysmm_tail))
             (Plus (Chr (CNot quote))) (Chr quote);
    GPattern ysmm_tail (Plus (Chr (CNot quote))) (Chr quote) ].

(** The pattern for an absolute URL: [https?://] and then one or more
    characters other than white space, [<], [>] and the two quote marks; the
    group spans the whole pattern. *)
Definition url_pattern : gpattern :=
  GPattern Eps
    (lit_then (str "http")
       (Seq (Opt (Chr (CLit "s")))
          (lit_then (str "://")
             (Plus (Chr (CNot (CUnion CSpace
                                 (CUnion (CLit "<") (CUnion (CLit ">") quote)))))))))
    Eps.

(** The decode loop: the character at an even index is appended, the one at
    an odd index is prepended. *)
Definition descramble_step (ysmm : text) (decoded : text) (i : nat) : text :=
  match ysmm !! i with
  | Some c => if Nat.even i then decoded ++ [c] else c :: decoded
  | None => decoded
  end.

Definition descramble (ysmm : text) : text :=
  foldl (descramble_step ysmm) [] (seq 0 (length ysmm)).

(** [for pattern in patterns: ...] over the response body. *)
Fixpoint scan_patterns (patterns : list gpattern) (html : text) : option text :=
  match patterns with
  | [] => None
  | pattern :: rest =>
      match search_group1 false pattern html with
      | Some ysmm =>
          match search_group1 false url_pattern (descramble ysmm) with
          | Some u => Some u
          | None => scan_patterns rest html
          end
      | None => scan_patterns rest html
      end
  end.

Section Strategies.
(** [self.safe_request], late-bound as every method of the instance. *)
Variable self_safe_request : text -> bool -> M (option Response).

Definition extract_adfly_link (url : text) : M (option text) :=
  try_except
    (let! response := self_safe_request url false in
     match response with
     | None => ret None
     | Some response => ret (scan_patterns ysmm_patterns (r_text response))
     end)
    (fun _ => ret None).

Definition extract_linkvertise_link (url : text) : M (option text) :=
  try_except
    (let! response := self_safe_request url true in
     match response with
     | Some response =>
         if bool_decide (r_url response ≠ url) then ret (Some (r_url response))
         else ret None
     | None => ret None
     end)
    (fun _ => ret None).
End Strategies.

(** ** [solve_single] *)

Definition set_solved (r : SolveResult) (solved : option text) : SolveResult :=
  mkSolveResult (original_url r) (service r) solved (bool_decide (is_Some solved))
                (error r) (response_time r).

Definition set_error (r : SolveResult) (e : option text) : SolveResult :=
  mkSolveResult (original_url r) (service r) (solved_url r) (success r) e (response_time r).

Definition set_response_time (r : SolveResult) (t : option Time) : SolveResult :=
  mkSolveResult (original_url r) (service r) (solved_url r) (success r) (error r) t.

Section Orchestrator.
Variable self_safe_request : text -> bool -> M (option Response).
Variable self_extract_adfly_link : text -> M (option text).
Variable self_extract_linkvertise_link : text -> M (option text).

(** The [if/elif] chain inside the [try]. *)
Definition dispatch (svc url : text) : M (option text) :=
  if bool_decide (svc = str "adfly") then self_extract_adfly_link url
  else if bool_decide (svc = str "linkvertise") then self_extract_linkvertise_link url
  else if bool_decide (svc = str "gyanilinks") then self_extract_adfly_link url
  else if bool_decide (svc = str "shortconnect") then
    let! response := self_safe_request url true in
    ret (r_url <$> response)
  else ret None.

Definition solve_single (url : text) : M SolveResult :=
  let! start_time := time_time in
  let svc := detect_service url in
  let result := SolveResult_new url svc None false None in
  let! result := try_except
              (let! solved := dispatch svc url in ret (set_solved result solved))
              (fun e => ret (set_error result (Some (str_exn e)))) in
  let! now := time_time in
  ret (set_response_time result (Some (now - start_time))).
End Orchestrator.

(** ** [solve_batch] *)

(** A finished future: the URL it was submitted for and what
    [future.result()] gives. *)
Definition future : Type := text * (SolveResult + exn).

(** [{url: i for i, url in enumerate(urls)}]: a later index overwrites. *)
Definition url_order (urls : list text) : gmap text nat :=
  foldl (fun m iu => <[iu.2 := iu.1]> m) ∅ (zip (seq 0 (length urls)) urls).

(** [list.sort(key=...)] is stable; on a list of keys a stable sort has one
    possible result, computed here by insertion. *)
Fixpoint insert_by {A} (key : A -> nat) (x : A) (l : list A) : list A :=
  match l with
  | [] => [x]
  | y :: l' => if (key x <=? key y)%nat then x :: y :: l' else y :: insert_by key x l'
  end.

Definition sort_by {A} (key : A -> nat) (l : list A) : list A :=
  foldr (insert_by key) [] l.

(** The body of the [for future in as_completed(...)] loop. *)
Definition collect_one (f : future) : SolveResult :=
  match f.2 with
  | inl result => result
  | inr e => SolveResult_new f.1 unknown None false (Some (str_exn e))
  end.

Definition restore_order (urls : list text) (results : list SolveResult) : list SolveResult :=
  let order := url_order urls in
  sort_by (fun x => default 0%nat (order !! original_url x)) results.

Section Scheduler.
Variable self_solve_single : text -> M SolveResult.

(** The submitted tasks, run here one after the other in submission
    order; an exception of a task stays in its future. *)
Fixpoint run_tasks (urls : list text) (w : World) : list future * World :=
  match urls with
  | [] => ([], w)
  | url :: rest =>
      let (o, w1) := self_solve_single url w in
      let (fs, w2) := run_tasks rest w1 in
      ((url, o) :: fs, w2)
  end.

(** [completion] lists the task indices in the order [as_completed]
    yields them. *)
Definition solve_batch (urls : list text) (completion : list nat) (w : World)
    : list SolveResult * World :=
  let (futures, w') := run_tasks urls w in
  let finished := omap (fun i => futures !! i) completion in
  (restore_order urls (collect_one <$> finished), w').
End Scheduler.

(** ** The solver as shipped *)

Definition shipped_extract_adfly_link (max_retries : Z) : text -> M (option text) :=
  extract_adfly_link (safe_request max_retries).

Definition shipped_extract_linkvertise_link (max_retries : Z) : text -> M (option text) :=
  extract_linkvertise_link (safe_request max_retries).

Definition shipped_solve_single (max_retries : Z) : text -> M SolveResult :=
  solve_single (safe_request max_retries)
               (shipped_extract_adfly_link max_retries)
               (shipped_extract_linkvertise_link max_retries).

Definition shipped_solve_batch (max_retries : Z)
    : list text -> list nat -> World -> list SolveResult * World :=
  solve_batch (shipped_solve_single max_retries).

(** ** [export_results], format ['json'] *)

#[local] Unset Elimination Schemes.
Inductive json : Type :=
  | JNull
  | JBool (b : bool)
  | JNum (t : Time)
  | JStr (s : text)
  | JArr (items : list json)
  | JObj (fields : list (string * json)).
#[local] Set Elimination Schemes.

Definition json_opt {A} (f : A -> json) (o : option A) : json :=
  match o with Some a => f a | None => JNull end.

(** The dictionary appended to [data] for one result. *)
Definition result_dict (r : SolveResult) : json :=
  JObj [ ("original_url"%string, JStr (original_url r));
         ("service"%string, JStr (service r));
         ("solved_url"%string, json_opt JStr (solved_url r));
         ("success"%string, JBool (success r));
         ("response_time"%string, json_opt JNum (response_time r));
         ("error"%string, json_opt JStr (error r)) ].

(** The names bound at module level by the imports, the assignment to
    [logger] and the two class statements. *)
Definition module_globals : gset string :=
  list_to_set
    [ "re"; "time"; "random"; "logging";
      "Optional"; "Dict"; "List"; "Tuple"; "Any";
      "dataclass"; "urlparse"; "requests";
      "ThreadPoolExecutor"; "as_completed";
      "logger"; "SolveResult"; "EnhancedABLinksSolver" ]%string.

Section ExportResults.
(** [json.dumps(data, indent=...)] of the standard library, were the
    name bound. *)
Variable json_dumps : json -> Z -> text.

(** The branch [if format == 'json']: the loop fills [data], then the
    global name [json] is looked up. *)
Definition export_results_json (results : list SolveResult) : text + exn :=
  let data := result_dict <$> results in
  if bool_decide ("json"%string ∈ module_globals)
  then inl (json_dumps (JArr data) 2)
  else inr (NameError (str "name 'json' is not defined")).
End ExportResults.

(** ** Proof support: literal prefixes *)

(** What is left of [s] after the literal run [w], when [s] starts with it. *)
Fixpoint strip (ic : bool) (w s : text) : option text :=
  match w with
  | [] => Some s
  | c :: w' =>
      match s with
      | x :: s' => if cset_mem ic (CLit c) x then strip ic w' s' else None
      | [] => None
      end
  end.

(** The four ways [https?://(?:www\.)?] can be spelled, in lower case. *)
Definition heads : list text :=
  [ str "https://www."; str "https://"; str "http://www."; str "http://" ].

(** Two host literals are compatible when some URL can start with both,
    each after one of the heads. *)
Definition compatible (h1 h2 : text) : Prop :=
  Exists (fun hd1 => Exists (fun hd2 =>
    (hd1 ++ h1) `prefix_of` (hd2 ++ h2) ∨ (hd2 ++ h2) `prefix_of` (hd1 ++ h1)) heads) heads.

Global Instance compatible_dec h1 h2 : Decision (compatible h1 h2).
Proof. unfold compatible. apply _. Defined.

(** ** Proof support: traces of the fetcher *)

(** An exchange is [None], a sleep is its duration. *)
Definition shape (tr : list event) : list (option Z) :=
  (fun e => match e with EvGet _ _ _ _ => None | EvSleep s => Some s end) <$> tr.

(** [j] exchanges, the first with attempt index [a], separated by sleeps of
    [2^attempt] seconds: no sleep follows the last one. *)
Fixpoint backoff_shape (a j : nat) : list (option Z) :=
  match j with
  | O => []
  | S j' =>
      None :: match j' with
              | O => []
              | S _ => Some (2 ^ Z.of_nat a) :: backoff_shape (S a) j'
              end
  end.

(** The exchange failed in the way [safe_request] retries. *)
Definition request_failed (o : Response + exn) : Prop :=
  exists msg, o = inr (RequestException msg).

(** How a call of [safe_request] that made [j] exchanges, starting in [w],
    ended. *)
Definition fetch_outcome (w : World) (url : text) (allow_redirects : bool)
    (limit j : nat) (res : option Response + exn) : Prop :=
  match res with
  | inl (Some response) =>
      (1 <= j)%nat /\ net w (gets w + j - 1)%nat url allow_redirects = inl response
  | inl None =>
      j = limit /\
      forall i, (i < j)%nat -> request_failed (net w (gets w + i)%nat url allow_redirects)
  | inr e =>
      (1 <= j)%nat /\ net w (gets w + j - 1)%nat url allow_redirects = inr e /\
      ~ request_failed (inr e)
  end.


(** The order [list.sort(key=...)] sorts by. *)
Definition key_le {A} (key : A -> nat) (x y : A) : Prop := (key x <= key y)%nat.

(** The world after one reading of the clock. *)
Definition tick (w : World) : World :=
  mkWorld (net w) (dice w) (clock w) (gets w) (draws w) (S (reads w)) (trace w).

(** ** Sample worlds *)

(** The first two exchanges fail with a status error, the later ones
    answer with the requested URL as final URL. *)
Definition flaky_world : World :=
  mkWorld (fun k url _ =>
             if (k <? 2)%nat then inr (RequestException (str "503 Server Error"))
             else inl (mkResponse url (str "<html></html>")))
          (fun k => k) (fun k => Z.of_nat k) 0 0 0 [].

(** Every exchange times out. *)
Definition dead_world : World :=
  mkWorld (fun _ _ _ => inr (RequestException (str "timed out")))
          (fun k => k) (fun k => Z.of_nat k) 0 0 0 [].

(** Every exchange answers at once, without a redirect. *)
Definition echo_world : World :=
  mkWorld (fun _ url _ => inl (mkResponse url (str "<html></html>")))
          (fun k => k) (fun k => Z.of_nat k) 0 0 0 [].

(** Every exchange breaks with an exception that is not a
    [RequestException]. *)
Definition broken_world : World :=
  mkWorld (fun _ _ _ => inr (OtherException (str "boom")))
          (fun k => k) (fun k => Z.of_nat k) 0 0 0 [].

(** No exchange is answered with a redirect and the clock does not move
    between two readings. *)
Definition frozen_world : World :=
  mkWorld (fun _ url _ => inl (mkResponse url (str "<html></html>")))
          (fun k => k) (fun _ => 1700000000) 0 0 0 [].

(** A [solve_single] that faults on every URL, as a worker task hit by a
    bug would. *)
Definition faulty_solve_single : text -> M SolveResult :=
  fun _ => raise (OtherException (str "worker crashed")).

(** ** Claims as stated, where the code departs from them *)

(** C1 as stated: when every exchange fails, the result carries an error
    text. *)
Definition failure_reports_error (max_retries : Z) (url : text) (w : World) : Prop :=
  (forall k ar, request_failed (net w k url ar)) ->
  exists r w',
    shipped_solve_single max_retries url w = (inl r, w') /\
    success r = false /\ error r <> None /\
    Z.of_nat (gets w' - gets w) = max_retries.

(** * Further definitions: the rest of the module and its callers *)

(** ** The language of a pattern *)

(** [lang ic r m]: the text [m], as a whole, is matched by [r]. *)
Inductive lang (ic : bool) : regex -> text -> Prop :=
  | lang_eps : lang ic Eps []
  | lang_chr cs x : cset_mem ic cs x = true -> lang ic (Chr cs) [x]
  | lang_seq a b m1 m2 : lang ic a m1 -> lang ic b m2 -> lang ic (Seq a b) (m1 ++ m2)
  | lang_alt_l a b m : lang ic a m -> lang ic (Alt a b) m
  | lang_alt_r a b m : lang ic b m -> lang ic (Alt a b) m
  | lang_star_nil a : lang ic (Star a) []
  | lang_star_cons a m1 m2 :
      lang ic a m1 -> lang ic (Star a) m2 -> lang ic (Star a) (m1 ++ m2).

(** The repetition loop of [exec], by itself. *)
Definition star_run {A} (ic : bool) (a : regex) (k : text -> option A)
    : nat -> text -> option A :=
  fix star (fuel : nat) (s : text) : option A :=
    match fuel with
    | O => k s
    | S fuel' =>
        or_else
          (exec ic a s (fun s' =>
             if (length s' <? length s)%nat then star fuel' s' else None))
          (k s)
    end.

(** A character the URL pattern of the adfly strategy accepts after the
    scheme: no white space, no angle bracket, no quote mark. *)
Definition url_char (c : ascii) : Prop :=
  is_space c = false /\ c <> "<"%char /\ c <> ">"%char /\
  c <> "034"%char /\ c <> "'"%char.


(** Every second element of a list, starting with the first one when
    [now] is set and with the second one otherwise. *)
Fixpoint alternate {A} (now : bool) (l : list A) : list A :=
  match l with
  | [] => []
  | x :: l' => if now then x :: alternate (negb now) l' else alternate (negb now) l'
  end.

(** [needle in hay], for two texts. *)
Fixpoint occurs (needle hay : text) : bool :=
  bool_decide (needle `prefix_of` hay) ||
  match hay with
  | [] => false
  | _ :: hay' => occurs needle hay'
  end.

(** The seconds slept in a trace. *)
Definition total_sleep (tr : list event) : Z :=
  foldr (fun e acc => match e with EvSleep s => s + acc | EvGet _ _ _ _ => acc end) 0 tr.


(** ** The command line's resolution loop ([__main__.py]) *)

Section Cli.
Variable self_solve_single : text -> M SolveResult.

End Cli.

(** The index of the last occurrence of [u] in [l], counted from [i]. *)
Fixpoint last_index_from (u : text) (l : list text) (i : nat) : option nat :=
  match l with
  | [] => None
  | x :: l' =>
      match last_index_from u l' (S i) with
      | Some j => Some j
      | None => if bool_decide (x = u) then Some i else None
      end
  end.

Definition last_index (u : text) (l : list text) : option nat := last_index_from u l 0.

(** ** [export_results], all formats *)

(** [sep.join(lines)] *)
Fixpoint join (sep : text) (lines : list text) : text :=
  match lines with
  | [] => []
  | line :: rest =>
      match rest with
      | [] => line
      | _ :: _ => line ++ sep ++ join sep rest
      end
  end.

(** [x or d] for an optional text [x]: the empty text is falsy, as [None]
    is. *)
Definition or_text (x : option text) (d : text) : text :=
  match x with
  | Some (c :: s) => c :: s
  | Some [] | None => d
  end.

(** What an f-string makes of a [bool] and of an optional text. *)
Definition show_bool (b : bool) : text := if b then str "True" else str "False".
Definition show_opt (x : option text) : text := default (str "None") x.

(** The double quote mark, as a text. *)
Definition dq : text := ["034"%char].

Definition newline : text := ["010"%char].

(** The exception [format(None, '.2f')] raises, a [TypeError]. *)
Definition format_none : exn :=
  OtherException (str "unsupported format string passed to NoneType.__format__").

Section ExportFormats.
(** [json.dumps], were the name bound. *)
Variable json_dumps : json -> Z -> text.
(** [str(x)] and [format(x, '.2f')] of a float. *)
Variable show_float : Time -> text.
Variable format_2f : Time -> text.
(** The check mark and the ballot cross of the text format, which lie
    outside the characters of [ascii]. *)
Variable mark_solved mark_failed : text.

(** [result.response_time or 0]: a missing time and the time [0.0] both
    give the integer [0]. *)
Definition show_time_or_0 (t : option Time) : text :=
  match t with
  | Some t => if bool_decide (t = 0) then str "0" else show_float t
  | None => str "0"
  end.

(** One line of the format ['csv']. *)
Definition csv_row (result : SolveResult) : text :=
  dq ++ original_url result ++ dq ++ str "," ++
  dq ++ service result ++ dq ++ str "," ++
  dq ++ or_text (solved_url result) [] ++ dq ++ str "," ++
  show_bool (success result) ++ str "," ++
  show_time_or_0 (response_time result) ++ str "," ++
  dq ++ or_text (error result) [] ++ dq.

Definition export_results_csv (results : list SolveResult) : text :=
  join newline
    (str "original_url,service,solved_url,success,response_time,error"
     :: (csv_row <$> results)).

(** The loop of the text format, [i] counting from 1: the line with the
    time formats [response_time] with [.2f], which raises on [None]. *)
Fixpoint text_lines (i : nat) (results : list SolveResult) : list text + exn :=
  match results with
  | [] => inl []
  | result :: rest =>
      match response_time result with
      | None => inr format_none
      | Some t =>
          match text_lines (S i) rest with
          | inl output =>
              inl ((str (pretty i) ++ str ". " ++ original_url result)
                   :: (str "   Service: " ++ service result)
                   :: (if success result
                       then str "   " ++ mark_solved ++ str " Solved: "
                            ++ show_opt (solved_url result)
                       else str "   " ++ mark_failed ++ str " Failed: "
                            ++ or_text (error result) (str "Unknown error"))
                   :: (str "   Time: " ++ format_2f t ++ str "s")
                   :: [] :: output)
          | inr e => inr e
          end
      end
  end.

Definition export_results_text (results : list SolveResult) : text + exn :=
  match text_lines 1 results with
  | inl output => inl (join newline output)
  | inr e => inr e
  end.

(** [export_results(results, format)] *)
Definition export_results (results : list SolveResult) (format : text) : text + exn :=
  if bool_decide (format = str "json") then export_results_json json_dumps results
  else if bool_decide (format = str "csv") then inl (export_results_csv results)
  else export_results_text results.
End ExportFormats.

(** A worker that faults on the URLs of one host and resolves the others as
    shipped. *)
Definition picky_solve_single (max_retries : Z) : text -> M SolveResult :=
  fun url =>
    if bool_decide (str "https://bad.example/" `prefix_of` url)
    then raise (OtherException (str "worker crashed"))
    else shipped_solve_single max_retries url.

Section MatcherFacts.
Context {A : Type}.
Implicit Types (k : text -> option A) (s w : text) (r : regex).

Lemma or_else_is_Some (x y : option A) :
  is_Some (or_else x y) -> is_Some x \/ is_Some y.
Proof. destruct x; simpl; eauto. Qed.

Lemma exec_lit_then ic w r s k :
  exec ic (lit_then w r) s k =
  match strip ic w s with Some s' => exec ic r s' k | None => None end.
Proof.
  revert s. induction w as [|c w IH]; intros s; [done|].
  simpl. destruct s as [|x s]; [done|].
  destruct (if ic then _ else _); [apply IH | done].
Qed.

Lemma exec_opt_chr ic c r s k :
  exec ic (Seq (Opt (Chr (CLit c))) r) s k =
  or_else (match strip ic [c] s with Some s' => exec ic r s' k | None => None end)
          (exec ic r s k).
Proof.
  simpl. destruct s as [|x s]; [done|].
  by destruct (if ic then _ else _).
Qed.

Lemma exec_opt_lit ic (w : string) r s k :
  exec ic (Seq (Opt (lit w)) r) s k =
  or_else (match strip ic (str w) s with Some s' => exec ic r s' k | None => None end)
          (exec ic r s k).
Proof.
  unfold lit. cbn [exec Opt]. rewrite exec_lit_then. reflexivity.
Qed.
End MatcherFacts.

Lemma strip_lower w s s' :
  strip true w s = Some s' -> lower <$> s = (lower <$> w) ++ (lower <$> s').
Proof.
  revert s. induction w as [|c w IH]; intros s H; simpl in H.
  - by inversion H.
  - destruct s as [|x s]; [done|].
    case_bool_decide as Hx; [|done].
    rewrite !fmap_cons, Hx, (IH _ H). reflexivity.
Qed.

Lemma url_head_is_Some {A} r url (k : text -> option A) :
  is_Some (exec true (url_head r) url k) ->
  exists hd u, hd ∈ heads /\ lower <$> url = hd ++ (lower <$> u) /\
               is_Some (exec true r u k).
Proof.
  unfold url_head. rewrite exec_lit_then.
  destruct (strip true (str "http") url) as [s1|] eqn:E1; [|by intros []].
  apply strip_lower in E1. rewrite exec_opt_chr. intros H.
  assert (exists pre s2, (pre = str "https://" \/ pre = str "http://") /\
            lower <$> url = pre ++ (lower <$> s2) /\
            is_Some (exec true (Seq (Opt (lit "www.")) r) s2 k)) as (pre & s2 & Hpre & E2 & H2).
  { apply or_else_is_Some in H as [H|H].
    - destruct (strip true ["s"%char] s1) as [s1'|] eqn:Es; [|by destruct H].
      apply strip_lower in Es. rewrite exec_lit_then in H.
      destruct (strip true (str "://") s1') as [s2|] eqn:E3; [|by destruct H].
      apply strip_lower in E3. exists (str "https://"), s2.
      split; [by left|]. split; [|done].
      rewrite E1, Es, E3. reflexivity.
    - rewrite exec_lit_then in H.
      destruct (strip true (str "://") s1) as [s2|] eqn:E3; [|by destruct H].
      apply strip_lower in E3. exists (str "http://"), s2.
      split; [by right|]. split; [|done].
      rewrite E1, E3. reflexivity. }
  rewrite exec_opt_lit in H2.
  apply or_else_is_Some in H2 as [H2|H2].
  - destruct (strip true (str "www.") s2) as [u|] eqn:E4; [|by destruct H2].
    apply strip_lower in E4. exists (pre ++ str "www."), u.
    split; [|split; [|done]].
    + destruct Hpre as [->| ->]; by apply (bool_decide_unpack _).
    + rewrite E2, E4, <-(assoc_L (++)). reflexivity.
  - exists pre, s2. split; [|done].
    destruct Hpre as [->| ->]; by apply (bool_decide_unpack _).
Qed.

(** A URL matched by a service pattern starts, in lower case, with a head
    and the host literal of the pattern. *)
Lemma matches_host h r url :
  matches true (url_head (lit_then h r)) url = true ->
  Exists (fun hd => (hd ++ (lower <$> h)) `prefix_of` (lower <$> url)) heads.
Proof.
  unfold matches, re_match. intros H%bool_decide_eq_true.
  apply url_head_is_Some in H as (hd & u & Hhd & E & H).
  rewrite exec_lit_then in H.
  destruct (strip true h u) as [u'|] eqn:E'; [|by destruct H].
  apply strip_lower in E'. apply Exists_exists. exists hd. split; [done|].
  exists (lower <$> u'). rewrite E, E', <-(assoc_L (++)). reflexivity.
Qed.

Lemma matches_compatible h1 r1 h2 r2 url :
  matches true (url_head (lit_then h1 r1)) url = true ->
  matches true (url_head (lit_then h2 r2)) url = true ->
  compatible (lower <$> h1) (lower <$> h2).
Proof.
  intros H1%matches_host H2%matches_host.
  apply Exists_exists in H1 as (hd1 & ? & P1).
  apply Exists_exists in H2 as (hd2 & ? & P2).
  apply Exists_exists. exists hd1. split; [done|].
  apply Exists_exists. exists hd2. split; [done|].
  eapply prefix_weak_total; eauto.
Qed.

Lemma matches_exclusive h1 r1 h2 r2 url :
  bool_decide (compatible (lower <$> h1) (lower <$> h2)) = false ->
  matches true (url_head (lit_then h1 r1)) url = true ->
  matches true (url_head (lit_then h2 r2)) url = false.
Proof.
  intros Hc H1. destruct (matches true (url_head (lit_then h2 r2)) url) eqn:H2; [|done].
  apply bool_decide_eq_false in Hc. destruct Hc. eapply matches_compatible; eauto.
Qed.

(** ** The classifier *)

Lemma first_match_true patterns url :
  first_match patterns url = true <->
  exists p, p ∈ patterns /\ matches true p url = true.
Proof.
  induction patterns as [|p patterns IH]; simpl.
  - split; [done|]. intros (p & Hp & _). by apply elem_of_nil in Hp.
  - destruct (matches true p url) eqn:E.
    + split; [|done]. intros _. exists p. split; [left|done].
    + rewrite IH. split.
      * intros (q & Hq & Hm). exists q. split; [by right|done].
      * intros (q & Hq & Hm). apply elem_of_cons in Hq as [->|Hq]; [congruence|].
        by exists q.
Qed.

Lemma first_match_false patterns url :
  first_match patterns url = false <->
  forall p, p ∈ patterns -> matches true p url = false.
Proof.
  rewrite <-not_true_iff_false, first_match_true. split.
  - intros H p Hp. apply not_true_iff_false. intros Hm. apply H. by exists p.
  - intros H (p & Hp & Hm). rewrite (H p Hp) in Hm. done.
Qed.

(** [detect_in] returns the first entry of the table one of whose patterns
    matches. *)
Lemma detect_in_first table url before svc patterns after :
  table = before ++ (svc, patterns) :: after ->
  first_match patterns url = true ->
  (forall svc' patterns', (svc', patterns') ∈ before -> first_match patterns' url = false) ->
  detect_in table url = svc.
Proof.
  intros -> Hm. induction before as [|[svc' patterns'] before IH]; intros Hb; simpl.
  - by rewrite Hm.
  - rewrite (Hb svc' patterns') by left. apply IH. intros ? ? ?. eapply Hb. by right.
Qed.

Lemma detect_in_none table url :
  (forall svc patterns, (svc, patterns) ∈ table -> first_match patterns url = false) ->
  detect_in table url = unknown.
Proof.
  induction table as [|[svc patterns] table IH]; intros H; simpl; [done|].
  rewrite (H svc patterns) by left. apply IH. intros ? ? ?. eapply H. by right.
Qed.

(** Either no pattern of the table matches and the answer is [unknown], or
    the answer names the first entry with a matching pattern. *)
Lemma detect_in_cases table url :
  (detect_in table url = unknown /\
   forall svc patterns, (svc, patterns) ∈ table -> first_match patterns url = false) \/
  (exists before svc patterns after,
     table = before ++ (svc, patterns) :: after /\
     detect_in table url = svc /\
     first_match patterns url = true /\
     forall svc' patterns', (svc', patterns') ∈ before -> first_match patterns' url = false).
Proof.
  induction table as [|[svc patterns] table IH]; simpl.
  - left. split; [done|]. intros ? ? H. by apply elem_of_nil in H.
  - destruct (first_match patterns url) eqn:E.
    + right. exists [], svc, patterns, table. repeat split; try done.
      intros ? ? H. by apply elem_of_nil in H.
    + destruct IH as [[Hu Hn]|(before & svc' & patterns' & after & -> & Hd & Hm & Hb)].
      * left. split; [done|]. intros s0 p0 H0.
        apply elem_of_cons in H0 as [[= -> ->]|H0]; [done|by eapply Hn].
      * right. exists ((svc, patterns) :: before), svc', patterns', after.
        repeat split; try done. intros s0 p0 H0.
        apply elem_of_cons in H0 as [[= -> ->]|H0]; [done|by eapply Hb].
Qed.

Lemma service_names_known svc patterns :
  (svc, patterns) ∈ service_patterns -> svc <> unknown.
Proof.
  unfold service_patterns. intros H.
  repeat (apply elem_of_cons in H as [[= -> _]|H]; [by intros ?%(bool_decide_pack _)|]).
  by apply elem_of_nil in H.
Qed.

(** A URL matched by a pattern of one service is matched by no pattern of a
    service listed earlier, hence is classified as that service. *)
Lemma detect_service_any_pattern url svc patterns p :
  (svc, patterns) ∈ service_patterns -> p ∈ patterns ->
  matches true p url = true -> detect_service url = svc.
Proof.
  unfold service_patterns, detect_service. intros H Hp Hm.
  repeat (apply elem_of_cons in H as [[= -> ->]|H]);
    [..|by apply elem_of_nil in H];
    repeat (apply elem_of_cons in Hp as [->|Hp]);
    try (by apply elem_of_nil in Hp);
    unfold service_patterns; cbn [detect_in first_match];
    rewrite ?Hm;
    repeat match goal with
      | |- context [matches true ?q url] =>
          let E := fresh "E" in destruct (matches true q url) eqn:E
      end;
    try reflexivity;
    exfalso;
    match goal with
    | E : matches true ?q url = true |- _ =>
        assert (matches true q url = false)
          by (eapply (matches_exclusive _ _ _ _ url); [|exact Hm]; by vm_compute);
        congruence
    end.
Qed.

Example detect_adfly :
  detect_service (str "https://adf.ly/1234567/https://example.com") = str "adfly".
Proof. by vm_compute. Qed.
Example detect_gyanilinks_mixed_case :
  detect_service (str "HTTPS://WWW.GyaniLinks.com/1234567/example") = str "gyanilinks".
Proof. by vm_compute. Qed.
Example detect_shortconnect :
  detect_service (str "https://shortconnect.com/abc123") = str "shortconnect".
Proof. by vm_compute. Qed.
Example detect_anchored_at_start :
  detect_service (str "xhttps://adf.ly/1234567/https://example.com") = unknown.
Proof. by vm_compute. Qed.
Example detect_unknown : detect_service (str "https://example.com/unknown") = unknown.
Proof. by vm_compute. Qed.

(** C5.  [detect_service] is a function of the URL alone.  It walks the
    services in the declared order and answers with the first service one of
    whose patterns matches at the start of the URL, case-insensitively; it
    answers [unknown] exactly when no pattern of any service matches; and a
    URL matched by the first-listed pattern of a service is classified as
    that service. *)
Theorem detect_service_classifies (url : text) :
  ((detect_service url = unknown /\
    forall svc patterns p, (svc, patterns) ∈ service_patterns -> p ∈ patterns ->
                           matches true p url = false) \/
   (exists before svc patterns after,
      service_patterns = before ++ (svc, patterns) :: after /\
      detect_service url = svc /\
      (exists p, p ∈ patterns /\ matches true p url = true) /\
      forall svc' patterns' p, (svc', patterns') ∈ before -> p ∈ patterns' ->
                               matches true p url = false)) /\
  ((forall svc patterns p, (svc, patterns) ∈ service_patterns -> p ∈ patterns ->
                           matches true p url = false) <->
   detect_service url = unknown) /\
  (forall svc patterns p,
     (svc, patterns) ∈ service_patterns -> head patterns = Some p ->
     matches true p url = true -> detect_service url = svc).
Proof.
  split; [|split].
  - destruct (detect_in_cases service_patterns url)
      as [[Hu Hn]|(before & svc & patterns & after & E & Hd & Hm & Hb)].
    + left. split; [done|]. intros svc patterns p Hs Hp.
      by eapply first_match_false; [eapply Hn|].
    + right. exists before, svc, patterns, after. repeat split; try done.
      * by apply first_match_true.
      * intros svc' patterns' p Hs Hp. by eapply first_match_false; [eapply Hb|].
  - split.
    + intros H. apply detect_in_none. intros svc patterns Hs.
      apply first_match_false. intros p Hp. by eapply H.
    + intros Hu svc patterns p Hs Hp.
      destruct (matches true p url) eqn:Hm; [|done].
      pose proof (detect_service_any_pattern url svc patterns p Hs Hp Hm) as Hd.
      destruct (service_names_known svc patterns Hs). congruence.
  - intros svc patterns p Hs Hh Hm.
    apply (detect_service_any_pattern url svc patterns p Hs); [|done].
    destruct patterns; simplify_eq/=. left.
Qed.

Lemma detect_service_classifies_witness :
  detect_service (str "https://www.link-to.net/42/page") = str "linkvertise" /\
  detect_service (str "https://LinkVertise.com/download") = str "linkvertise".
Proof.
  split.
  - by vm_compute.
  - apply (proj2 (proj2 (detect_service_classifies
                           (str "https://LinkVertise.com/download")))
             (str "linkvertise") [pat_linkvertise_1; pat_linkvertise_2] pat_linkvertise_1).
    + unfold service_patterns. right. left.
    + reflexivity.
    + by vm_compute.
Defined.

(** ** The descramble loop *)

Lemma descramble_loop_perm (ysmm decoded : text) (n i : nat) :
  (i + n <= length ysmm)%nat ->
  foldl (descramble_step ysmm) decoded (seq i n) ≡ₚ decoded ++ take n (drop i ysmm).
Proof.
  revert decoded i. induction n as [|n IH]; intros decoded i Hle; simpl.
  - by rewrite take_0, (right_id_L [] (++)).
  - destruct (lookup_lt_is_Some_2 ysmm i) as [c Hc]; [lia|].
    rewrite (drop_S _ _ _ Hc). simpl.
    rewrite IH by lia. unfold descramble_step. rewrite Hc.
    destruct (Nat.even i).
    + by rewrite <-(assoc_L (++)).
    + simpl. by rewrite Permutation_middle.
Qed.

Lemma descramble_perm (ysmm : text) : descramble ysmm ≡ₚ ysmm.
Proof.
  unfold descramble. rewrite descramble_loop_perm by (simpl; lia).
  simpl. by rewrite drop_0, firstn_all.
Qed.

Lemma descramble_length (ysmm : text) : length (descramble ysmm) = length ysmm.
Proof. by rewrite descramble_perm. Qed.

(** ** What the matcher hands to its continuation *)

Lemma or_else_Some {A} (x y : option A) a :
  or_else x y = Some a -> x = Some a \/ y = Some a.
Proof. destruct x; simpl; eauto. Qed.

Lemma exec_suffix {A} ic r : forall s (k : text -> option A) a,
  exec ic r s k = Some a -> exists s', s' `suffix_of` s /\ k s' = Some a.
Proof.
  induction r as [|cs|r1 IH1 r2 IH2|r1 IH1 r2 IH2|r IH]; intros s k a H; simpl in H.
  - by exists s.
  - destruct s as [|x s]; [done|]. destruct (cset_mem ic cs x); [|done].
    exists s. split; [|done]. by apply suffix_cons_r.
  - apply IH1 in H as (s1 & Hs1 & H). apply IH2 in H as (s2 & Hs2 & H).
    exists s2. split; [|done]. by etrans.
  - apply or_else_Some in H as [H|H]; eauto.
  - revert H. generalize (length s) at 1. intros fuel. revert s.
    induction fuel as [|fuel IHf]; intros s H.
    + by exists s.
    + apply or_else_Some in H as [H|H]; [|by exists s].
      apply IH in H as (s1 & Hs1 & H).
      destruct (length s1 <? length s)%nat; [|done].
      apply IHf in H as (s2 & Hs2 & H). exists s2. split; [|done]. by etrans.
Qed.

(** The text of group 1 is a contiguous piece of the subject. *)
Lemma match_group1_sublist ic p s g :
  match_group1 ic p s = Some g -> g `sublist_of` s.
Proof.
  unfold match_group1. intros H.
  apply exec_suffix in H as (s1 & Hs1 & H).
  apply exec_suffix in H as (s2 & _ & H).
  apply exec_suffix in H as (s3 & _ & [= <-]).
  destruct Hs1 as [k0 ->]. apply sublist_inserts_l, sublist_take.
Qed.

Lemma search_group1_sublist ic p s g :
  search_group1 ic p s = Some g -> g `sublist_of` s.
Proof.
  induction s as [|x s IH]; simpl.
  - destruct (match_group1 ic p []) eqn:E; [|done].
    intros [= ->]. by eapply match_group1_sublist.
  - destruct (match_group1 ic p (x :: s)) eqn:E.
    + intros [= ->]. by eapply match_group1_sublist.
    + intros H. apply sublist_cons. by apply IH.
Qed.

(** A URL found by the decode loop is cut out of the descrambled token of
    one of the patterns. *)
Lemma scan_patterns_from_token patterns html u :
  scan_patterns patterns html = Some u ->
  exists pattern ysmm,
    pattern ∈ patterns /\ search_group1 false pattern html = Some ysmm /\
    u `sublist_of` descramble ysmm.
Proof.
  induction patterns as [|pattern patterns IH]; simpl; [done|].
  destruct (search_group1 false pattern html) as [ysmm|] eqn:E.
  - destruct (search_group1 false url_pattern (descramble ysmm)) as [u'|] eqn:Eu.
    + intros [= ->]. exists pattern, ysmm. split; [left|]. split; [done|].
      by eapply search_group1_sublist.
    + intros (p' & y' & ? & ? & ?)%IH. exists p', y'. split; [by right|done].
  - intros (p' & y' & ? & ? & ?)%IH. exists p', y'. split; [by right|done].
Qed.

(** C8.  Some token of even length and some token of odd length come back
    unchanged when the descramble transform is applied twice. *)
Theorem descramble_twice_round_trips :
  (exists token : text, Nat.even (length token) = true /\ token <> [] /\
                        descramble (descramble token) = token) /\
  (exists token : text, Nat.odd (length token) = true /\
                        descramble (descramble token) = token).
Proof.
  split.
  - exists (str "ab"). by vm_compute.
  - exists (str "abc"). by vm_compute.
Qed.

(** The transform is not an involution on every token: from length four on
    a second application need not undo the first. *)
Lemma descramble_twice_abcd :
  descramble (str "abcd") = str "dbac" /\
  descramble (descramble (str "abcd")) = str "cbda".
Proof. by vm_compute. Qed.

(** C10.  The decoded text has the length of the captured token and is a
    permutation of it; a URL returned by the extraction is cut out of the
    decoded text of a captured token, so each of its characters occurs in
    that token, with at most the multiplicity it has there. *)
Theorem descramble_permutes_token :
  (forall ysmm : text,
     length (descramble ysmm) = length ysmm /\ descramble ysmm ≡ₚ ysmm) /\
  (forall self_safe_request url w u w',
     extract_adfly_link self_safe_request url w = (inl (Some u), w') ->
     exists response pattern ysmm,
       self_safe_request url false w = (inl (Some response), w') /\
       pattern ∈ ysmm_patterns /\
       search_group1 false pattern (r_text response) = Some ysmm /\
       u `sublist_of` descramble ysmm /\
       u ⊆+ ysmm /\
       forall c, c ∈ u -> c ∈ ysmm).
Proof.
  split.
  - intros ysmm. split; [apply descramble_length | apply descramble_perm].
  - intros sr url w u w'. unfold extract_adfly_link, try_except, bind, ret.
    destruct (sr url false w) as [[[response|]|e] w1] eqn:E; [|done..].
    intros Heq.
    assert (scan_patterns ysmm_patterns (r_text response) = Some u /\ w1 = w')
      as [Hs <-] by (split; congruence).
    apply scan_patterns_from_token in Hs as (pattern & ysmm & Hp & Hy & Hu).
    assert (u ⊆+ ysmm) as Hsub.
    { rewrite <-(descramble_perm ysmm). by apply sublist_submseteq. }
    exists response, pattern, ysmm. repeat split; try done.
    intros c Hc. by eapply elem_of_submseteq.
Qed.

Lemma descramble_permutes_token_witness :
  exists ysmm : text,
    length (descramble ysmm) = length ysmm /\ str "http://a.bc/" ⊆+ ysmm.
Proof.
  pose (url := str "https://adf.ly/1/x").
  pose (html := str "<script>var ysmm = '//a:.pbtct/h';</script>").
  pose (w := mkWorld (fun _ _ _ => inl (mkResponse url html)) (fun _ => 0%nat)
                     (fun k => Z.of_nat k) 0 0 0 []).
  destruct (proj2 descramble_permutes_token (safe_request 3) url w
              (str "http://a.bc/")
              (extract_adfly_link (safe_request 3) url w).2)
    as (response & pattern & ysmm & _ & _ & _ & _ & Hsub & _).
  - by vm_compute.
  - exists ysmm. split; [|exact Hsub].
    apply (proj1 descramble_permutes_token).
Defined.

(** ** The fetcher *)

Lemma attempt_once_run url ar w :
  exists ua, ua ∈ user_agents /\
    attempt_once url ar w =
      (net w (gets w) url ar,
       mkWorld (net w) (dice w) (clock w) (S (gets w)) (S (draws w)) (reads w)
               (trace w ++ [EvGet url ar ua 30])).
Proof.
  unfold attempt_once, bind, random_choice, session_get.
  destruct (lookup_lt_is_Some_2 user_agents
              (dice w (draws w) `mod` length user_agents)%nat) as [ua Hua].
  { apply Nat.mod_upper_bound. by vm_compute. }
  exists ua. split; [by eapply list_elem_of_lookup_2|].
  rewrite Hua. reflexivity.
Qed.

(** One round of the loop. *)
Lemma safe_request_loop_cons max_retries attempt rest url ar w :
  exists ua,
    let w1 := mkWorld (net w) (dice w) (clock w) (S (gets w)) (S (draws w)) (reads w)
                      (trace w ++ [EvGet url ar ua 30]) in
    safe_request_loop max_retries (attempt :: rest) url ar w =
    match net w (gets w) url ar with
    | inl response => (inl (Some response), w1)
    | inr (RequestException msg) =>
        if bool_decide (attempt = max_retries - 1) then (inl None, w1)
        else safe_request_loop max_retries rest url ar
               (mkWorld (net w) (dice w) (clock w) (S (gets w)) (S (draws w)) (reads w)
                        ((trace w ++ [EvGet url ar ua 30]) ++ [EvSleep (2 ^ attempt)]))
    | inr e => (inr e, w1)
    end.
Proof.
  destruct (attempt_once_run url ar w) as (ua & _ & Hrun). exists ua.
  cbn [safe_request_loop]. unfold try_except, bind at 1. rewrite Hrun.
  destruct (net w (gets w) url ar) as [response|[msg|msg|msg]]; try reflexivity.
  case_bool_decide; reflexivity.
Qed.

Lemma safe_request_loop_spec max_retries url ar : forall m a w,
  max_retries = Z.of_nat (a + m) ->
  exists j new,
    let res := (safe_request_loop max_retries (Z.of_nat <$> seq a m) url ar w).1 in
    let w' := (safe_request_loop max_retries (Z.of_nat <$> seq a m) url ar w).2 in
    (j <= m)%nat /\ ((0 < m)%nat -> (0 < j)%nat) /\
    net w' = net w /\ clock w' = clock w /\ reads w' = reads w /\
    gets w' = (gets w + j)%nat /\
    trace w' = trace w ++ new /\
    shape new = backoff_shape a j /\
    (forall i, (i + 1 < j)%nat -> request_failed (net w (gets w + i)%nat url ar)) /\
    fetch_outcome w url ar m j res.
Proof.
  induction m as [|m IH]; intros a w Hmax.
  - exists 0%nat, []. simpl. rewrite (right_id_L [] (++)).
    repeat split; try done; try lia.
  - cbn [seq fmap list_fmap].
    destruct (safe_request_loop_cons max_retries (Z.of_nat a)
                (Z.of_nat <$> seq (S a) m) url ar w) as [ua ->].
    destruct (net w (gets w) url ar) as [response|e] eqn:Hnet.
    + exists 1%nat, [EvGet url ar ua 30]. simpl.
      repeat split; try done; try lia.
      replace (gets w + 1 - 1)%nat with (gets w) by lia. done.
    + assert (~ request_failed (inr e) ->
              exists j new,
                let res : option Response + exn := inr e in
                let w' := mkWorld (net w) (dice w) (clock w) (S (gets w)) (S (draws w))
                                  (reads w) (trace w ++ [EvGet url ar ua 30]) in
                (j <= S m)%nat /\ ((0 < S m)%nat -> (0 < j)%nat) /\
                net w' = net w /\ clock w' = clock w /\ reads w' = reads w /\
                gets w' = (gets w + j)%nat /\
                trace w' = trace w ++ new /\
                shape new = backoff_shape a j /\
                (forall i, (i + 1 < j)%nat ->
                           request_failed (net w (gets w + i)%nat url ar)) /\
                fetch_outcome w url ar (S m) j res) as Hother.
      { intros Hnf. exists 1%nat, [EvGet url ar ua 30]. simpl.
        repeat split; try done; try lia.
        replace (gets w + 1 - 1)%nat with (gets w) by lia. done. }
      destruct e as [msg|msg|msg];
        [|apply Hother; by intros [? ?]|apply Hother; by intros [? ?]].
      clear Hother. case_bool_decide as Hlast.
      * assert (m = 0)%nat as -> by lia.
        exists 1%nat, [EvGet url ar ua 30]. simpl.
        repeat split; try done; try lia.
        intros i Hi. assert (i = 0)%nat as -> by lia.
        rewrite Nat.add_0_r, Hnet. by exists msg.
      * assert (0 < m)%nat as Hm by lia.
        match goal with
        | |- context [safe_request_loop _ _ _ _ ?w1] =>
            destruct (IH (S a) w1) as (j & new & Hj & Hpos & Hn & Hc & Hr & Hg & Ht & Hs & Hf & Ho)
        end; [lia|].
        cbn [net clock reads gets trace] in *.
        exists (S j), (EvGet url ar ua 30 :: EvSleep (2 ^ Z.of_nat a) :: new).
        cbn zeta in *.
        repeat split; try done; try lia.
        -- rewrite Ht, <-!(assoc_L (++)). reflexivity.
        -- cbn [shape fmap list_fmap backoff_shape]. f_equal.
           destruct j as [|j]; [lia|]. f_equal. exact Hs.
        -- intros i Hi. destruct i as [|i].
           ++ rewrite Nat.add_0_r, Hnet. by exists msg.
           ++ specialize (Hf i ltac:(lia)).
              replace (gets w + S i)%nat with (S (gets w) + i)%nat by lia. done.
        -- revert Ho. unfold fetch_outcome.
           destruct (safe_request_loop _ _ _ _ _).1 as [[response|]|e].
           ++ intros [? E]. split; [lia|].
              replace (gets w + S j - 1)%nat with (S (gets w) + j - 1)%nat by lia. done.
           ++ intros [-> E]. split; [done|]. intros i Hi. destruct i as [|i].
              ** rewrite Nat.add_0_r, Hnet. by exists msg.
              ** replace (gets w + S i)%nat with (S (gets w) + i)%nat by lia.
                 apply E. lia.
           ++ intros (? & E & ?). split; [lia|]. split; [|done].
              replace (gets w + S j - 1)%nat with (S (gets w) + j - 1)%nat by lia. done.
Qed.

(** C6.  A call of [safe_request] makes [j] exchanges, at most
    [max_retries] of them (none when [max_retries] is not positive); its
    trace is exchange, sleep of [2^0], exchange, sleep of [2^1], ..., ending
    with the [j]-th exchange and no sleep; every exchange before the last
    failed; a response is the one of the last exchange, hence of the first
    that succeeded; and [None] is returned only when all [max_retries]
    exchanges failed. *)
Theorem safe_request_retries (max_retries : Z) (url : text) (allow_redirects : bool)
    (w : World) :
  exists j new,
    let res := (safe_request max_retries url allow_redirects w).1 in
    let w' := (safe_request max_retries url allow_redirects w).2 in
    (j <= Z.to_nat max_retries)%nat /\
    gets w' = (gets w + j)%nat /\
    trace w' = trace w ++ new /\
    shape new = backoff_shape 0 j /\
    (forall i, (i + 1 < j)%nat ->
               request_failed (net w (gets w + i)%nat url allow_redirects)) /\
    fetch_outcome w url allow_redirects (Z.to_nat max_retries) j res.
Proof.
  unfold safe_request, range.
  destruct (decide (0 <= max_retries)) as [Hpos|Hneg].
  - destruct (safe_request_loop_spec max_retries url allow_redirects
                (Z.to_nat max_retries) 0 w)
      as (j & new & Hj & _ & _ & _ & _ & Hg & Ht & Hs & Hf & Ho); [lia|].
    exists j, new. cbn zeta in *. repeat split; done.
  - replace (Z.to_nat max_retries) with 0%nat by lia.
    exists 0%nat, []. simpl. rewrite (right_id_L [] (++)).
    repeat split; try done; try lia.
Qed.

Example safe_request_flaky :
  (safe_request 3 (str "https://shortconnect.com/abc123") true flaky_world).1
    = inl (Some (mkResponse (str "https://shortconnect.com/abc123") (str "<html></html>"))) /\
  shape (trace (safe_request 3 (str "https://shortconnect.com/abc123") true flaky_world).2)
    = [None; Some 1; None; Some 2; None].
Proof. by vm_compute. Qed.

Example safe_request_exhausted :
  (safe_request 3 (str "https://adf.ly/1/x") false dead_world).1 = inl None /\
  shape (trace (safe_request 3 (str "https://adf.ly/1/x") false dead_world).2)
    = [None; Some 1; None; Some 2; None].
Proof. by vm_compute. Qed.

(** ** The orchestrator *)

Section OrchestratorFacts.
Variable self_safe_request : text -> bool -> M (option Response).
Variable self_extract_adfly_link : text -> M (option text).
Variable self_extract_linkvertise_link : text -> M (option text).

(** [solve_single] unfolded: the outcome of the dispatch decides the
    fields, the two clock readings decide the time. *)
Lemma solve_single_run url w :
  solve_single self_safe_request self_extract_adfly_link
    self_extract_linkvertise_link url w =
  let svc := detect_service url in
  let '(o, w2) := dispatch self_safe_request self_extract_adfly_link
                    self_extract_linkvertise_link svc url (tick w) in
  let t := Some (clock w2 (reads w2) - clock w (reads w)) in
  (inl match o with
       | inl solved =>
           mkSolveResult url svc solved (bool_decide (is_Some solved)) None t
       | inr e => mkSolveResult url svc None false (Some (str_exn e)) t
       end,
   tick w2).
Proof.
  unfold solve_single, bind, try_except, time_time, ret. fold (tick w).
  destruct (dispatch _ _ _ (detect_service url) url (tick w)) as [[solved|e] w2];
    reflexivity.
Qed.

(** C4.  Whatever the strategies and the fetcher do, [solve_single]
    returns a result and raises nothing: an exception that escapes the
    dispatch becomes the [error] text of a result with [success = false];
    otherwise the result carries what the strategy returned. *)
Theorem solve_single_never_raises url w :
  exists r w',
    solve_single self_safe_request self_extract_adfly_link
      self_extract_linkvertise_link url w = (inl r, w') /\
    original_url r = url /\ service r = detect_service url /\
    is_Some (response_time r) /\
    match (dispatch self_safe_request self_extract_adfly_link
             self_extract_linkvertise_link (detect_service url) url (tick w)).1 with
    | inr e => error r = Some (str_exn e) /\ success r = false /\ solved_url r = None
    | inl solved =>
        error r = None /\ solved_url r = solved /\
        success r = bool_decide (is_Some solved)
    end.
Proof.
  rewrite solve_single_run. cbn zeta.
  destruct (dispatch _ _ _ (detect_service url) url (tick w)) as [[solved|e] w2];
    eexists _, _; (split; [reflexivity|]); simpl; eauto 10.
Qed.
End OrchestratorFacts.

Example solve_single_captures_exception :
  (shipped_solve_single 3 (str "https://shortconnect.com/abc123") broken_world).1
  = inl (mkSolveResult (str "https://shortconnect.com/abc123") (str "shortconnect")
           None false (Some (str "boom")) (Some 1)).
Proof. by vm_compute. Qed.

(** A fault inside the adfly strategy does not get that far: the strategy
    returns [None] and the result has no error text. *)
Example adfly_fault_stays_inside :
  (shipped_solve_single 3 (str "https://adf.ly/1234567/x") broken_world).1
  = inl (mkSolveResult (str "https://adf.ly/1234567/x") (str "adfly")
           None false None (Some 1)).
Proof. by vm_compute. Qed.

(** ** The shipped strategies *)

(** The two extraction methods keep their faults to themselves. *)
Lemma extract_adfly_link_never_raises sr url w :
  exists o w', extract_adfly_link sr url w = (inl o, w').
Proof.
  unfold extract_adfly_link, try_except, bind, ret.
  destruct (sr url false w) as [[[response|]|e] w1]; eauto.
Qed.

Lemma extract_linkvertise_link_run sr url w :
  extract_linkvertise_link sr url w =
  let '(o, w') := sr url true w in
  (inl match o with
       | inl (Some response) =>
           if bool_decide (r_url response = url) then None else Some (r_url response)
       | _ => None
       end, w').
Proof.
  unfold extract_linkvertise_link, try_except, bind, ret.
  destruct (sr url true w) as [[[response|]|e] w1]; try reflexivity.
  case_bool_decide as H1; case_bool_decide as H2; try reflexivity; by destruct H1.
Qed.

Lemma safe_request_all_fail max_retries url ar w :
  0 <= max_retries ->
  (forall k, request_failed (net w k url ar)) ->
  exists w',
    safe_request max_retries url ar w = (inl None, w') /\
    net w' = net w /\ clock w' = clock w /\ reads w' = reads w /\
    gets w' = (gets w + Z.to_nat max_retries)%nat.
Proof.
  intros Hpos Hfail. unfold safe_request, range.
  destruct (safe_request_loop_spec max_retries url ar (Z.to_nat max_retries) 0 w)
    as (j & new & _ & _ & Hn & Hc & Hr & Hg & _ & _ & _ & Ho); [lia|].
  cbn zeta in *.
  destruct (safe_request_loop _ _ _ _ _) as [res w'] eqn:E. simpl in *.
  exists w'. destruct res as [[response|]|e]; simpl in Ho.
  - destruct Ho as [_ Ho]. destruct (Hfail (gets w + j - 1)%nat) as [msg Hm]. congruence.
  - destruct Ho as [-> _]. done.
  - destruct Ho as (_ & Ho & Hnf). destruct Hnf. rewrite <-Ho. apply Hfail.
Qed.

Lemma detect_service_range url :
  detect_service url = str "adfly" \/ detect_service url = str "linkvertise" \/
  detect_service url = str "gyanilinks" \/ detect_service url = str "shortconnect" \/
  detect_service url = unknown.
Proof.
  unfold detect_service, service_patterns. cbn [detect_in].
  repeat match goal with
         | |- context [first_match ?ps url] => destruct (first_match ps url)
         end; tauto.
Qed.

Ltac decide_names :=
  repeat match goal with
         | |- context [bool_decide (?a = ?b)] =>
             let v := eval vm_compute in (bool_decide (a = b)) in
             change (bool_decide (a = b)) with v
         end;
  cbv iota.

(** C1, amended.  When every exchange fails, [solve_single] on a URL of a
    known service returns a result with [success = false], no solved URL and
    no error text, after exactly [max_retries] exchanges. *)
Theorem failure_leaves_error_empty (max_retries : Z) (url : text) (w : World) :
  0 <= max_retries ->
  detect_service url <> unknown ->
  (forall k ar, request_failed (net w k url ar)) ->
  exists r w',
    shipped_solve_single max_retries url w = (inl r, w') /\
    success r = false /\ solved_url r = None /\ error r = None /\
    Z.of_nat (gets w' - gets w) = max_retries.
Proof.
  intros Hpos Hknown Hfail. unfold shipped_solve_single.
  rewrite solve_single_run. cbn zeta.
  assert (forall ar, exists w',
            safe_request max_retries url ar (tick w) = (inl None, w') /\
            gets w' = (gets w + Z.to_nat max_retries)%nat) as Hreq.
  { intros ar. destruct (safe_request_all_fail max_retries url ar (tick w) Hpos)
      as (w' & E & _ & _ & _ & Hg); [intros k; apply Hfail|]. by exists w'. }
  assert (exists w2,
            dispatch (safe_request max_retries)
              (shipped_extract_adfly_link max_retries)
              (shipped_extract_linkvertise_link max_retries)
              (detect_service url) url (tick w) = (inl None, w2) /\
            gets w2 = (gets w + Z.to_nat max_retries)%nat) as (w2 & -> & Hg).
  { unfold dispatch, shipped_extract_adfly_link, shipped_extract_linkvertise_link.
    destruct (detect_service_range url) as [E|[E|[E|[E|E]]]]; [..|done];
      rewrite E; decide_names.
    - destruct (Hreq false) as (w' & Hw & Hg). exists w'. split; [|done].
      unfold extract_adfly_link, try_except, bind. by rewrite Hw.
    - destruct (Hreq true) as (w' & Hw & Hg). exists w'. split; [|done].
      rewrite extract_linkvertise_link_run. by rewrite Hw.
    - destruct (Hreq false) as (w' & Hw & Hg). exists w'. split; [|done].
      unfold extract_adfly_link, try_except, bind. by rewrite Hw.
    - destruct (Hreq true) as (w' & Hw & Hg). exists w'. split; [|done].
      unfold bind. by rewrite Hw. }
  eexists _, _. split; [reflexivity|]. simpl. repeat split. lia.
Qed.

Lemma failure_leaves_error_empty_witness :
  exists r w',
    shipped_solve_single 3 (str "https://adf.ly/1234567/x") dead_world = (inl r, w') /\
    success r = false /\ solved_url r = None /\ error r = None /\
    Z.of_nat (gets w' - gets dead_world) = 3.
Proof.
  apply (failure_leaves_error_empty 3 (str "https://adf.ly/1234567/x") dead_world).
  - lia.
  - by vm_compute.
  - intros k ar. exists (str "timed out"). reflexivity.
Defined.

(** C1 as stated fails: the result of a resolution whose exchanges all
    time out has no error text. *)
Lemma failure_reports_error_refuted :
  ~ failure_reports_error 3 (str "https://adf.ly/1234567/x") dead_world.
Proof.
  intros H. destruct H as (r & w' & E & _ & Herr & _).
  { intros k ar. exists (str "timed out"). reflexivity. }
  apply Herr.
  assert ((shipped_solve_single 3 (str "https://adf.ly/1234567/x") dead_world).1
          = inl (mkSolveResult (str "https://adf.ly/1234567/x") (str "adfly")
                   None false None (Some 1))) as E' by (by vm_compute).
  rewrite E in E'. simpl in E'. by injection E' as ->.
Qed.

(** ** Redirect-follow *)

(** Both redirect-follow paths fetch with redirects enabled. *)
Lemma redirect_follow_allows_redirects (max_retries : Z) (url : text) (w : World) :
  let via_linkvertise := (shipped_extract_linkvertise_link max_retries url w).2 in
  let via_shortconnect :=
    (dispatch (safe_request max_retries) (shipped_extract_adfly_link max_retries)
              (shipped_extract_linkvertise_link max_retries)
              (str "shortconnect") url w).2 in
  via_linkvertise = (safe_request max_retries url true w).2 /\
  via_shortconnect = (safe_request max_retries url true w).2.
Proof.
  cbn zeta. unfold shipped_extract_linkvertise_link, dispatch. decide_names.
  rewrite extract_linkvertise_link_run. unfold bind, ret.
  destruct (safe_request max_retries url true w) as [[o|e] w']; done.
Qed.

(** The linkvertise path returns the final URL exactly when it differs from
    the input. *)
Lemma linkvertise_candidate (max_retries : Z) (url : text) (w : World) response :
  (safe_request max_retries url true w).1 = inl (Some response) ->
  (shipped_extract_linkvertise_link max_retries url w).1 =
  inl (if bool_decide (r_url response = url) then None else Some (r_url response)).
Proof.
  unfold shipped_extract_linkvertise_link. rewrite extract_linkvertise_link_run.
  destruct (safe_request max_retries url true w) as [o w']. simpl. by intros ->.
Qed.

(** C7, shortconnect.  The shortconnect path returns the final URL even
    when it is the input URL: a page answered without any redirect is
    reported as solved, with the input as solution. *)
Theorem shortconnect_same_url_is_candidate :
  let url := str "https://shortconnect.com/abc123" in
  exists r w',
    shipped_solve_single 3 url echo_world = (inl r, w') /\
    service r = str "shortconnect" /\
    solved_url r = Some url /\ success r = true /\
    trace w' =
      [EvGet url true
         (str "Mozilla/5.0 (Windows NT 10.0; Win64; x64) AppleWebKit/537.36") 30].
Proof. cbn zeta. eexists _, _. split; [by vm_compute|]. by vm_compute. Qed.

Example linkvertise_same_url_is_not :
  let url := str "https://linkvertise.com/1234567/example" in
  (shipped_solve_single 3 url echo_world).1 =
  inl (mkSolveResult url (str "linkvertise") None false None (Some 1)).
Proof. by vm_compute. Qed.

(** ** The clock *)

(** The fetcher reads no clock and leaves the scripts alone. *)
Lemma safe_request_loop_keeps_clock max_retries url ar attempts w :
  let w' := (safe_request_loop max_retries attempts url ar w).2 in
  clock w' = clock w /\ reads w' = reads w.
Proof.
  revert w. induction attempts as [|attempt rest IH]; intros w; [done|].
  destruct (safe_request_loop_cons max_retries attempt rest url ar w) as [ua ->].
  destruct (net w (gets w) url ar) as [response|[msg|msg|msg]]; try done.
  case_bool_decide; [done|].
  match goal with
  | |- context [safe_request_loop _ _ _ _ ?w1] => destruct (IH w1) as [Hc Hr]
  end.
  cbn zeta. by rewrite Hc, Hr.
Qed.

Lemma shipped_dispatch_keeps_clock max_retries svc url w :
  let w' := (dispatch (safe_request max_retries)
               (shipped_extract_adfly_link max_retries)
               (shipped_extract_linkvertise_link max_retries) svc url w).2 in
  clock w' = clock w /\ reads w' = reads w.
Proof.
  assert (forall ar, let w' := (safe_request max_retries url ar w).2 in
                     clock w' = clock w /\ reads w' = reads w) as Hreq.
  { intros ar. apply safe_request_loop_keeps_clock. }
  assert (let w' := (shipped_extract_adfly_link max_retries url w).2 in
          clock w' = clock w /\ reads w' = reads w) as Hadfly.
  { unfold shipped_extract_adfly_link, extract_adfly_link, try_except, bind, ret.
    specialize (Hreq false).
    destruct (safe_request max_retries url false w) as [[[response|]|e] w']; done. }
  unfold dispatch. repeat case_bool_decide; try done.
  - unfold shipped_extract_linkvertise_link. rewrite extract_linkvertise_link_run.
    specialize (Hreq true).
    destruct (safe_request max_retries url true w) as [o w']; done.
  - unfold bind, ret. specialize (Hreq true).
    destruct (safe_request max_retries url true w) as [[o|e] w']; done.
Qed.

(** The time of a result of [solve_single] is the difference of the two
    clock readings the function makes: populated always, positive exactly
    when the second reading is later than the first. *)
Lemma shipped_response_time max_retries url w :
  exists r w',
    shipped_solve_single max_retries url w = (inl r, w') /\
    response_time r = Some (clock w (S (reads w)) - clock w (reads w)).
Proof.
  unfold shipped_solve_single. rewrite solve_single_run. cbn zeta.
  pose proof (shipped_dispatch_keeps_clock max_retries (detect_service url) url (tick w))
    as [Hc Hr].
  cbn zeta in *.
  destruct (dispatch _ _ _ _ _ _) as [[solved|e] w2]; simpl in *;
    eexists _, _; (split; [reflexivity|]); simpl; by rewrite Hc, Hr.
Qed.

Example response_time_frozen_clock :
  (shipped_solve_single 3 (str "https://example.com/unknown-page") frozen_world).1
  = inl (mkSolveResult (str "https://example.com/unknown-page") unknown
           None false None (Some 0)).
Proof. by vm_compute. Qed.

(** ** Sorting by key *)

Section SortBy.
Context {A : Type} (key : A -> nat).

Lemma insert_by_perm x l : insert_by key x l ≡ₚ x :: l.
Proof.
  induction l as [|y l IH]; simpl; [done|].
  destruct (key x <=? key y)%nat; [done|].
  by rewrite IH, Permutation_swap.
Qed.

Lemma sort_by_perm l : sort_by key l ≡ₚ l.
Proof.
  induction l as [|x l IH]; simpl; [done|].
  by rewrite insert_by_perm, IH.
Qed.

Lemma insert_by_sorted x l :
  StronglySorted (key_le key) l -> StronglySorted (key_le key) (insert_by key x l).
Proof.
  induction 1 as [|y l Hl IH Hy]; simpl.
  - repeat constructor.
  - destruct (key x <=? key y)%nat eqn:E.
    + apply Nat.leb_le in E. constructor; [by constructor|].
      constructor; [done|].
      eapply Forall_impl; [exact Hy|]. unfold key_le. intros z Hz. lia.
    + apply Nat.leb_gt in E. constructor; [done|].
      rewrite insert_by_perm. constructor; [|done]. unfold key_le. lia.
Qed.

Lemma sort_by_sorted l : StronglySorted (key_le key) (sort_by key l).
Proof.
  induction l as [|x l IH]; simpl; [constructor|]. by apply insert_by_sorted.
Qed.

Lemma indexed_sorted (l : list A) (a : nat) :
  (forall i x, l !! i = Some x -> key x = (a + i)%nat) ->
  StronglySorted (key_le key) l.
Proof.
  revert a. induction l as [|y l IH]; intros a H; [constructor|].
  constructor.
  - apply (IH (S a)). intros i x Hi. rewrite (H (S i) x Hi). lia.
  - apply Forall_forall. intros x Hx.
    apply list_elem_of_lookup in Hx as [i Hi].
    unfold key_le. rewrite (H 0%nat y eq_refl), (H (S i) x Hi). lia.
Qed.

(** A stable sort puts a list whose keys are its positions, shuffled,
    back in order. *)
Lemma sort_by_index (target l : list A) :
  (forall i x, target !! i = Some x -> key x = i) ->
  l ≡ₚ target -> sort_by key l = target.
Proof.
  intros Hkey Hperm.
  apply (StronglySorted_unique_strong (key_le key)).
  - intros x1 x2 H1 H2 Hle1 Hle2.
    rewrite sort_by_perm, Hperm in H1.
    apply list_elem_of_lookup in H1 as [i Hi].
    apply list_elem_of_lookup in H2 as [j Hj].
    unfold key_le in *. rewrite (Hkey i x1 Hi), (Hkey j x2 Hj) in *.
    assert (i = j) as -> by lia. congruence.
  - apply sort_by_sorted.
  - by apply (indexed_sorted target 0).
  - by rewrite sort_by_perm.
Qed.
End SortBy.

(** ** The order dictionary *)

Lemma url_order_fold_other (m : gmap text nat) (l : list text) (a : nat) (u : text) :
  u ∉ l ->
  foldl (fun m iu => <[iu.2 := iu.1]> m) m (zip (seq a (length l)) l) !! u = m !! u.
Proof.
  revert m a. induction l as [|x l IH]; intros m a Hu; simpl; [done|].
  apply not_elem_of_cons in Hu as [Hne Hu].
  rewrite IH by done. by apply lookup_insert_ne.
Qed.

Lemma url_order_fold_nodup (m : gmap text nat) (l : list text) (a i : nat) (u : text) :
  NoDup l -> l !! i = Some u ->
  foldl (fun m iu => <[iu.2 := iu.1]> m) m (zip (seq a (length l)) l) !! u
  = Some (a + i)%nat.
Proof.
  revert m a i. induction l as [|x l IH]; intros m a i Hnd Hi; [done|].
  apply NoDup_cons in Hnd as [Hx Hnd]. simpl. destruct i as [|i]; simpl in Hi.
  - injection Hi as ->. rewrite url_order_fold_other by done.
    simpl. rewrite lookup_insert_eq. f_equal. lia.
  - rewrite (IH _ _ i) by done. f_equal. lia.
Qed.

Lemma url_order_nodup (urls : list text) (i : nat) (u : text) :
  NoDup urls -> urls !! i = Some u -> url_order urls !! u = Some i.
Proof. intros. unfold url_order. by rewrite (url_order_fold_nodup _ _ 0 i). Qed.

(** ** Collecting the futures *)

Lemma omap_lookup_cons {A} (x : A) (l : list A) (js : list nat) :
  omap (fun i => (x :: l) !! i) (S <$> js) = omap (fun i => l !! i) js.
Proof.
  induction js as [|j js IH]; [done|].
  rewrite fmap_cons. cbn [omap list_omap]. rewrite <-IH. reflexivity.
Qed.

Lemma omap_lookup_seq {A} (l : list A) :
  omap (fun i => l !! i) (seq 0 (length l)) = l.
Proof.
  induction l as [|x l IH]; [done|].
  cbn [length seq]. rewrite <-fmap_S_seq. cbn [omap list_omap].
  rewrite omap_lookup_cons, IH. reflexivity.
Qed.

Section SchedulerFacts.
Variable self_solve_single : text -> M SolveResult.

Lemma run_tasks_urls urls w :
  (run_tasks self_solve_single urls w).1.*1 = urls.
Proof.
  revert w. induction urls as [|url urls IH]; intros w; simpl; [done|].
  destruct (self_solve_single url w) as [o w1].
  specialize (IH w1). destruct (run_tasks self_solve_single urls w1) as [fs w2].
  simpl in *. f_equal. exact IH.
Qed.

Lemma run_tasks_length urls w :
  length (run_tasks self_solve_single urls w).1 = length urls.
Proof. by rewrite <-(run_tasks_urls urls w) at 2; rewrite length_fmap. Qed.

(** Each task returns, if it returns, a result for its own URL. *)
Hypothesis solve_single_keeps_url : forall url w r w',
  self_solve_single url w = (inl r, w') -> original_url r = url.

Lemma run_tasks_original_url urls w i f :
  (run_tasks self_solve_single urls w).1 !! i = Some f ->
  urls !! i = Some (original_url (collect_one f)).
Proof using solve_single_keeps_url.
  revert w i. induction urls as [|url urls IH]; intros w i; simpl; [done|].
  destruct (self_solve_single url w) as [o w1] eqn:E.
  specialize (IH w1). destruct (run_tasks self_solve_single urls w1) as [fs w2].
  simpl in *. destruct i as [|i]; simpl; [|apply IH].
  intros [= <-]. f_equal. unfold collect_one. simpl.
  destruct o as [r|e]; [|done]. symmetry. by eapply solve_single_keeps_url.
Qed.

(** For pairwise distinct URLs, whatever the completion order, the batch
    returns the results of the tasks in submission order: one per URL,
    result [i] being the one for [urls !! i]. *)
Lemma solve_batch_restores_distinct urls completion w :
  NoDup urls ->
  completion ≡ₚ seq 0 (length urls) ->
  (solve_batch self_solve_single urls completion w).1
    = collect_one <$> (run_tasks self_solve_single urls w).1 /\
  original_url <$> (solve_batch self_solve_single urls completion w).1 = urls.
Proof using solve_single_keeps_url.
  intros Hnd Hperm. unfold solve_batch.
  pose proof (run_tasks_length urls w) as Hlen.
  pose proof (run_tasks_original_url urls w) as Hurl.
  destruct (run_tasks self_solve_single urls w) as [futures w']. simpl in *.
  assert (restore_order urls
            (collect_one <$> omap (fun i => futures !! i) completion)
          = collect_one <$> futures) as ->.
  { unfold restore_order. apply sort_by_index.
    - intros i x Hx. apply list_lookup_fmap_Some in Hx as (f & -> & Hf).
      apply Hurl in Hf. by rewrite (url_order_nodup urls i _ Hnd Hf).
    - rewrite Hperm, <-Hlen, omap_lookup_seq. done. }
  split; [done|].
  apply list_eq. intros i. rewrite <-list_fmap_compose, list_lookup_fmap.
  destruct (futures !! i) as [f|] eqn:Hf; simpl.
  - symmetry. by apply Hurl.
  - symmetry. apply lookup_ge_None. apply lookup_ge_None in Hf. lia.
Qed.

(** One result per submitted URL, with or without repeated URLs. *)
Lemma solve_batch_length urls completion w :
  completion ≡ₚ seq 0 (length urls) ->
  length (solve_batch self_solve_single urls completion w).1 = length urls.
Proof.
  intros Hperm. unfold solve_batch.
  pose proof (run_tasks_length urls w) as Hlen.
  destruct (run_tasks self_solve_single urls w) as [futures w']. simpl in *.
  unfold restore_order. rewrite sort_by_perm, length_fmap, Hperm, <-Hlen.
  by rewrite omap_lookup_seq.
Qed.
End SchedulerFacts.

Lemma shipped_solve_single_keeps_url max_retries url w r w' :
  shipped_solve_single max_retries url w = (inl r, w') -> original_url r = url.
Proof.
  unfold shipped_solve_single. rewrite solve_single_run. cbn zeta.
  destruct (dispatch _ _ _ _ _ _) as [[solved|e] w2]; by intros [= <- _].
Qed.

(** The shipped batch keeps the input order on pairwise distinct URLs. *)
Lemma shipped_solve_batch_distinct max_retries urls completion w :
  NoDup urls ->
  completion ≡ₚ seq 0 (length urls) ->
  length (shipped_solve_batch max_retries urls completion w).1 = length urls /\
  original_url <$> (shipped_solve_batch max_retries urls completion w).1 = urls.
Proof.
  intros Hnd Hperm. unfold shipped_solve_batch. split.
  - by apply solve_batch_length.
  - eapply solve_batch_restores_distinct; eauto using shipped_solve_single_keeps_url.
Qed.

(** C2, repeated URLs.  For the input [a; b; a] the batch returns, in every
    completion order, the results for [b; a; a]: the first slot holds the
    result of the second URL. *)
Theorem repeated_url_breaks_order (completion : list nat) :
  completion ≡ₚ [0; 1; 2]%nat ->
  let a := str "https://example.com/a" in
  let b := str "https://example.com/b" in
  original_url <$> (shipped_solve_batch 3 [a; b; a] completion echo_world).1
  = [b; a; a].
Proof.
  intros Hperm. symmetry in Hperm. apply permutations_Permutation in Hperm.
  vm_compute in Hperm.
  repeat (apply elem_of_cons in Hperm as [->|Hperm]; [by vm_compute|]).
  by apply elem_of_nil in Hperm.
Qed.

Lemma repeated_url_breaks_order_witness :
  original_url <$>
    (shipped_solve_batch 3
       [str "https://example.com/a"; str "https://example.com/b";
        str "https://example.com/a"] [2; 0; 1]%nat echo_world).1
  = [str "https://example.com/b"; str "https://example.com/a";
     str "https://example.com/a"].
Proof.
  apply (repeated_url_breaks_order [2; 0; 1]%nat).
  by apply (bool_decide_unpack _).
Defined.


(** ** Export *)

(** C9.  The module never imports [json]: the JSON branch of
    [export_results] ends in a [NameError] for every list of results,
    whatever [json.dumps] would have produced. *)
Theorem export_json_raises_name_error (json_dumps : json -> Z -> text)
    (results : list SolveResult) :
  export_results_json json_dumps results
  = inr (NameError (str "name 'json' is not defined")).
Proof.
  unfold export_results_json.
  assert (bool_decide ("json"%string ∈ module_globals) = false) as -> by (by vm_compute).
  reflexivity.
Qed.

(** ** The batch scheduler *)

(** C3, synthesized results.  The result built for a faulted task keeps the
    default [response_time = None]; a batch whose only task faults returns
    such a result. *)
Theorem synthesized_result_lacks_response_time :
  (forall (f : future) e,
     f.2 = inr e ->
     response_time (collect_one f) = None /\
     original_url (collect_one f) = f.1 /\
     error (collect_one f) = Some (str_exn e)) /\
  (solve_batch faulty_solve_single [str "https://example.com/a"] [0%nat] echo_world).1
  = [mkSolveResult (str "https://example.com/a") unknown None false
       (Some (str "worker crashed")) None].
Proof.
  split; [|by vm_compute].
  intros [u o] e. simpl. intros ->. done.
Qed.

(** ** More on the batch scheduler *)

(** X1.  Whatever the completion order and however often a URL is
    repeated, the batch returns the results of the tasks, each once: a
    permutation of them, hence one per submitted URL. *)
Theorem solve_batch_permutes_results (self_solve_single : text -> M SolveResult)
    (urls : list text) (completion : list nat) (w : World) :
  completion ≡ₚ seq 0 (length urls) ->
  (solve_batch self_solve_single urls completion w).1
    ≡ₚ collect_one <$> (run_tasks self_solve_single urls w).1 /\
  length (solve_batch self_solve_single urls completion w).1 = length urls /\
  (solve_batch self_solve_single urls completion w).2
    = (run_tasks self_solve_single urls w).2.
Proof.
  intros Hperm. unfold solve_batch.
  pose proof (run_tasks_length self_solve_single urls w) as Hlen.
  destruct (run_tasks self_solve_single urls w) as [futures w']. simpl in *.
  assert (restore_order urls (collect_one <$> omap (fun i => futures !! i) completion)
          ≡ₚ collect_one <$> futures) as Hp.
  { unfold restore_order. rewrite sort_by_perm, Hperm, <-Hlen.
    by rewrite omap_lookup_seq. }
  split; [done|]. split; [|done]. by rewrite Hp, length_fmap.
Qed.

Lemma solve_batch_permutes_results_witness :
  let urls := [str "https://example.com/a"; str "https://example.com/b";
               str "https://example.com/a"] in
  length (solve_batch (shipped_solve_single 3) urls [2; 0; 1]%nat echo_world).1 = 3%nat.
Proof.
  cbn zeta.
  apply (solve_batch_permutes_results (shipped_solve_single 3)
           [str "https://example.com/a"; str "https://example.com/b";
            str "https://example.com/a"] [2; 0; 1]%nat echo_world).
  by apply (bool_decide_unpack _).
Defined.

(** X2.  On pairwise distinct URLs the shipped batch returns, in every
    completion order, the result of each task at the position of its URL. *)
Theorem solve_batch_keeps_distinct_order (max_retries : Z) (urls : list text)
    (completion : list nat) (w : World) :
  NoDup urls ->
  completion ≡ₚ seq 0 (length urls) ->
  (shipped_solve_batch max_retries urls completion w).1
    = collect_one <$> (run_tasks (shipped_solve_single max_retries) urls w).1 /\
  original_url <$> (shipped_solve_batch max_retries urls completion w).1 = urls.
Proof.
  intros Hnd Hperm. unfold shipped_solve_batch.
  eapply solve_batch_restores_distinct; eauto using shipped_solve_single_keeps_url.
Qed.

Lemma solve_batch_keeps_distinct_order_witness :
  let urls := [str "https://example.com/a"; str "https://shortconnect.com/abc123";
               str "https://example.com/c"] in
  original_url <$> (shipped_solve_batch 3 urls [1; 2; 0]%nat flaky_world).1 = urls.
Proof.
  cbn zeta.
  apply (solve_batch_keeps_distinct_order 3
           [str "https://example.com/a"; str "https://shortconnect.com/abc123";
            str "https://example.com/c"] [1; 2; 0]%nat flaky_world).
  - by apply (bool_decide_unpack _).
  - by apply (bool_decide_unpack _).
Defined.

(** The dictionary maps a URL to the index of its last occurrence. *)
Lemma url_order_fold_last (m : gmap text nat) (l : list text) (a : nat) (u : text) :
  foldl (fun m iu => <[iu.2 := iu.1]> m) m (zip (seq a (length l)) l) !! u
  = match last_index_from u l a with Some j => Some j | None => m !! u end.
Proof.
  revert m a. induction l as [|x l IH]; intros m a; simpl; [done|].
  rewrite IH. destruct (last_index_from u l (S a)) as [j|]; [done|].
  case_bool_decide as Hx.
  - subst. by rewrite lookup_insert_eq.
  - by rewrite lookup_insert_ne.
Qed.

Lemma url_order_last urls u : url_order urls !! u = last_index u urls.
Proof.
  unfold url_order, last_index. rewrite url_order_fold_last.
  destruct (last_index_from u urls 0); [done|]. apply lookup_empty.
Qed.

Lemma last_index_from_found u l a k :
  l !! k = Some u -> is_Some (last_index_from u l a).
Proof.
  revert a k. induction l as [|x l IH]; intros a k Hk; [done|]. simpl.
  destruct k as [|k]; simpl in Hk.
  - injection Hk as ->. destruct (last_index_from u l (S a)); [done|].
    by rewrite bool_decide_eq_true_2.
  - destruct (IH (S a) k Hk) as [j ->]. done.
Qed.

Lemma last_index_from_spec u l a j :
  last_index_from u l a = Some j ->
  (a <= j)%nat /\ l !! (j - a)%nat = Some u /\
  forall k, (j - a < k)%nat -> l !! k <> Some u.
Proof.
  revert a j. induction l as [|x l IH]; intros a j; simpl; [done|].
  destruct (last_index_from u l (S a)) as [j'|] eqn:E.
  - intros [= ->]. apply IH in E as (Hle & Hj & Hlast).
    split; [lia|]. replace (j - a)%nat with (S (j - S a)) by lia.
    split; [done|]. intros k Hk. destruct k as [|k]; [lia|]. simpl.
    apply Hlast. lia.
  - case_bool_decide as Hx; [|done]. intros [= <-]. subst x.
    split; [lia|]. rewrite Nat.sub_diag. split; [done|].
    intros k Hk. destruct k as [|k]; [lia|]. simpl. intros Hk'.
    destruct (last_index_from_found u l (S a) k Hk') as [j' Hj']. congruence.
Qed.

Lemma StronglySorted_weaken {A} (R R' : relation A) (l : list A) :
  (forall x y, R x y -> R' x y) -> StronglySorted R l -> StronglySorted R' l.
Proof.
  intros HR. induction 1 as [|x l Hl IH Hx]; constructor; [done|].
  eapply Forall_impl; eauto.
Qed.

(** X3.  [url_order] sends every URL of the input to the index of its last
    occurrence and knows no other URL; the batch output is sorted by that
    index, so the results of a repeated URL all sit together, where its
    last occurrence puts them. *)
Theorem solve_batch_sorted_by_last_occurrence (self_solve_single : text -> M SolveResult)
    (urls : list text) (completion : list nat) (w : World) :
  (forall u i, url_order urls !! u = Some i <->
               urls !! i = Some u /\ forall k, (i < k)%nat -> urls !! k <> Some u) /\
  StronglySorted
    (fun x y => (default 0%nat (last_index (original_url x) urls)
                 <= default 0%nat (last_index (original_url y) urls))%nat)
    (solve_batch self_solve_single urls completion w).1.
Proof.
  split.
  - intros u i. rewrite url_order_last. unfold last_index. split.
    + intros H. apply last_index_from_spec in H as (_ & Hi & Hlast).
      rewrite Nat.sub_0_r in *. done.
    + intros [Hi Hlast].
      destruct (last_index_from u urls 0) as [j|] eqn:E.
      * apply last_index_from_spec in E as (_ & Hj & Hlastj).
        rewrite Nat.sub_0_r in *. f_equal.
        destruct (Nat.lt_trichotomy i j) as [Hlt|[->|Hgt]]; [|done|].
        -- by destruct (Hlast j Hlt).
        -- by destruct (Hlastj i Hgt).
      * destruct (last_index_from_found u urls 0 i Hi) as [j Hj]. congruence.
  - unfold solve_batch. destruct (run_tasks self_solve_single urls w) as [futures w'].
    simpl. unfold restore_order.
    eapply StronglySorted_weaken; [|apply sort_by_sorted].
    unfold key_le. intros x y. by rewrite !url_order_last.
Qed.

(** ** More on the orchestrator and the strategies *)

(** X4.  A URL of no known service is answered without any exchange, sleep
    or random draw: the result has [success = false], no solved URL and no
    error, and only the clock has been read, twice. *)
Theorem unknown_service_touches_nothing (sr : text -> bool -> M (option Response))
    (ea el : text -> M (option text)) (url : text) (w : World) :
  detect_service url = unknown ->
  solve_single sr ea el url w
  = (inl (mkSolveResult url unknown None false None
            (Some (clock w (S (reads w)) - clock w (reads w)))),
     tick (tick w)).
Proof.
  intros Hu. rewrite solve_single_run. cbn zeta. rewrite Hu.
  unfold dispatch. decide_names. reflexivity.
Qed.

Lemma unknown_service_touches_nothing_witness :
  (shipped_solve_single 3 (str "https://example.com/unknown-page") dead_world).1
  = inl (mkSolveResult (str "https://example.com/unknown-page") unknown None false None
           (Some 1)).
Proof.
  unfold shipped_solve_single.
  rewrite (unknown_service_touches_nothing _ _ _
             (str "https://example.com/unknown-page") dead_world); [|by vm_compute].
  reflexivity.
Defined.

(** The dispatch of the shipped solver raises only on the shortconnect
    branch, with an exception the fetcher does not handle. *)
Lemma shipped_dispatch_raises max_retries svc url w e :
  (dispatch (safe_request max_retries) (shipped_extract_adfly_link max_retries)
     (shipped_extract_linkvertise_link max_retries) svc url w).1 = inr e ->
  svc = str "shortconnect" /\ (safe_request max_retries url true w).1 = inr e.
Proof.
  unfold dispatch, shipped_extract_adfly_link, shipped_extract_linkvertise_link.
  repeat case_bool_decide.
  - destruct (extract_adfly_link_never_raises (safe_request max_retries) url w)
      as (o & w' & ->). done.
  - rewrite extract_linkvertise_link_run.
    destruct (safe_request max_retries url true w) as [o w']. done.
  - destruct (extract_adfly_link_never_raises (safe_request max_retries) url w)
      as (o & w' & ->). done.
  - unfold bind, ret.
    destruct (safe_request max_retries url true w) as [[o|e'] w']; [done|].
    simpl. by intros [= ->].
  - done.
Qed.

(** X5.  In the shipped solver only a shortconnect URL can come back with
    an error text: the adfly, linkvertise and gyanilinks strategies keep
    every fault to themselves, and the text is [str(e)] of an exception
    other than a [RequestException] that an exchange raised. *)
Theorem error_only_for_shortconnect (max_retries : Z) (url : text) (w : World) :
  exists r w',
    shipped_solve_single max_retries url w = (inl r, w') /\
    (is_Some (error r) ->
     service r = str "shortconnect" /\
     exists e k, error r = Some (str_exn e) /\ net w k url true = inr e /\
                 ~ request_failed (inr e)).
Proof.
  unfold shipped_solve_single. rewrite solve_single_run. cbn zeta.
  destruct (dispatch _ _ _ (detect_service url) url (tick w)) as [[solved|e] w2] eqn:E;
    eexists _, _; (split; [reflexivity|]); simpl; [by intros [? ?]|].
  intros _.
  destruct (shipped_dispatch_raises max_retries (detect_service url) url (tick w) e)
    as [Hsvc Hreq]; [by rewrite E|].
  split; [done|]. exists e.
  unfold safe_request, range in Hreq.
  destruct (decide (0 <= max_retries)) as [Hpos|Hneg].
  - destruct (safe_request_loop_spec max_retries url true (Z.to_nat max_retries) 0 (tick w))
      as (j & new & _ & _ & _ & _ & _ & _ & _ & _ & _ & Ho); [lia|].
    cbn zeta in Ho. rewrite Hreq in Ho. destruct Ho as (_ & Hn & Hnf).
    eexists. split; [done|]. split; [exact Hn|done].
  - replace (Z.to_nat max_retries) with 0%nat in Hreq by lia. done.
Qed.

(** X6.  [extract_linkvertise_link] never raises, calls the fetcher once
    with redirects enabled, and when it returns a URL, that URL is the final
    URL of the response and differs from the input. *)
Theorem linkvertise_never_returns_input (sr : text -> bool -> M (option Response))
    (url : text) (w : World) :
  exists o,
    extract_linkvertise_link sr url w = (inl o, (sr url true w).2) /\
    forall u, o = Some u ->
      u <> url /\
      exists response, (sr url true w).1 = inl (Some response) /\ r_url response = u.
Proof.
  rewrite extract_linkvertise_link_run.
  destruct (sr url true w) as [[[response|]|e] w']; simpl;
    eexists; (split; [reflexivity|]); try done.
  intros u. case_bool_decide; [done|]. intros [= <-]. eauto.
Qed.

(** X7.  [extract_adfly_link] never raises, calls the fetcher once without
    following redirects, and returns a URL only when the fetcher returned a
    response: a fetch that fails or raises gives [None]. *)
Theorem adfly_needs_a_response (sr : text -> bool -> M (option Response))
    (url : text) (w : World) :
  exists o,
    extract_adfly_link sr url w = (inl o, (sr url false w).2) /\
    forall u, o = Some u ->
      exists response,
        (sr url false w).1 = inl (Some response) /\
        scan_patterns ysmm_patterns (r_text response) = Some u.
Proof.
  unfold extract_adfly_link, try_except, bind, ret.
  destruct (sr url false w) as [[[response|]|e] w']; simpl;
    eexists; (split; [reflexivity|]); try done.
  intros u Hu. eauto.
Qed.

(** ** The command line's loop *)



(** ** More on the fetcher *)

Lemma total_sleep_app tr1 tr2 : total_sleep (tr1 ++ tr2) = total_sleep tr1 + total_sleep tr2.
Proof.
  induction tr1 as [|[u a ua t|s] tr1 IH]; simpl; lia.
Qed.

Lemma total_sleep_backoff new a j :
  shape new = backoff_shape a j ->
  total_sleep new = 2 ^ Z.of_nat a * (2 ^ Z.of_nat (j - 1) - 1).
Proof.
  revert new a. induction j as [|j IH]; intros new a Hs.
  - destruct new; [simpl; lia|done].
  - destruct new as [|[u r ua t|s] new]; [done| |done].
    simpl in Hs. injection Hs as Hs. destruct j as [|j].
    + destruct new; [simpl; lia|done].
    + destruct new as [|[u' r' ua' t'|s] new]; [done|done|].
      simpl in Hs. injection Hs as -> Hs.
      cbn [total_sleep foldr]. fold (total_sleep new).
      rewrite (IH new (S a)) by done.
      replace (S (S j) - 1)%nat with (S (S j - 1)) by lia.
      rewrite !Nat2Z.inj_succ, !Z.pow_succ_r by lia. lia.
Qed.

(** What a call of [safe_request] costs: [j] exchanges, the sleeps between
    them, and no reading of the clock. *)
Lemma safe_request_cost (max_retries : Z) (url : text) (allow_redirects : bool)
    (w : World) :
  exists j new,
    let w' := (safe_request max_retries url allow_redirects w).2 in
    (j <= Z.to_nat max_retries)%nat /\ gets w' = (gets w + j)%nat /\
    trace w' = trace w ++ new /\ shape new = backoff_shape 0 j /\
    reads w' = reads w /\
    total_sleep new = 2 ^ Z.of_nat (j - 1) - 1 /\
    0 <= total_sleep new <= 2 ^ Z.of_nat (Z.to_nat max_retries - 1) - 1.
Proof.
  unfold safe_request, range.
  assert (exists j new,
            let w' := (safe_request_loop max_retries
                         (Z.of_nat <$> seq 0 (Z.to_nat max_retries))
                         url allow_redirects w).2 in
            (j <= Z.to_nat max_retries)%nat /\ gets w' = (gets w + j)%nat /\
            trace w' = trace w ++ new /\ shape new = backoff_shape 0 j /\
            reads w' = reads w)
    as (j & new & Hj & Hg & Ht & Hs & Hr).
  { destruct (decide (0 <= max_retries)) as [Hpos|Hneg].
    - destruct (safe_request_loop_spec max_retries url allow_redirects
                  (Z.to_nat max_retries) 0 w)
        as (j & new & Hj & _ & _ & _ & Hr & Hg & Ht & Hs & _); [lia|].
      by exists j, new.
    - replace (Z.to_nat max_retries) with 0%nat by lia.
      exists 0%nat, []. simpl. by rewrite (right_id_L [] (++)). }
  exists j, new. cbn zeta in *.
  pose proof (total_sleep_backoff new 0 j Hs) as Hsleep.
  change (2 ^ Z.of_nat 0) with 1 in Hsleep.
  assert (0 < 2 ^ Z.of_nat (j - 1)) by (apply Z.pow_pos_nonneg; lia).
  assert (2 ^ Z.of_nat (j - 1) <= 2 ^ Z.of_nat (Z.to_nat max_retries - 1)).
  { apply Z.pow_le_mono_r; lia. }
  repeat split; try done; lia.
Qed.

(** X9.  A call of [safe_request] that makes [j] exchanges sleeps
    [2^(j-1) - 1] seconds in all: nothing when the first exchange settles
    it, and at most [2^(max_retries-1) - 1] seconds, which is 3 seconds for
    the default of three attempts. *)
Theorem safe_request_total_backoff (max_retries : Z) (url : text)
    (allow_redirects : bool) (w : World) :
  let w' := (safe_request max_retries url allow_redirects w).2 in
  let j := (gets w' - gets w)%nat in
  (j <= Z.to_nat max_retries)%nat /\
  total_sleep (trace w') = total_sleep (trace w) + (2 ^ Z.of_nat (j - 1) - 1) /\
  total_sleep (trace w') - total_sleep (trace w)
    <= 2 ^ Z.of_nat (Z.to_nat max_retries - 1) - 1.
Proof.
  cbn zeta.
  destruct (safe_request_cost max_retries url allow_redirects w)
    as (j & new & Hj & Hg & Ht & _ & _ & Hs & Hb).
  cbn zeta in *. rewrite Hg, Ht, total_sleep_app.
  replace (gets w + j - gets w)%nat with j by lia. lia.
Qed.

Example safe_request_default_backoff :
  total_sleep (trace (safe_request 3 (str "https://adf.ly/1/x") false dead_world).2) = 3.
Proof. by vm_compute. Qed.




(** ** What a resolution costs *)

(** The dispatch of the shipped solver calls the fetcher once, or not at
    all. *)
Lemma shipped_dispatch_world max_retries svc url w :
  let w' := (dispatch (safe_request max_retries) (shipped_extract_adfly_link max_retries)
               (shipped_extract_linkvertise_link max_retries) svc url w).2 in
  w' = w \/ exists allow_redirects, w' = (safe_request max_retries url allow_redirects w).2.
Proof.
  cbn zeta.
  assert ((shipped_extract_adfly_link max_retries url w).2
          = (safe_request max_retries url false w).2) as Hadfly.
  { unfold shipped_extract_adfly_link, extract_adfly_link, try_except, bind, ret.
    by destruct (safe_request max_retries url false w) as [[[response|]|e] w']. }
  unfold dispatch. repeat case_bool_decide.
  - right. by exists false.
  - right. exists true. unfold shipped_extract_linkvertise_link.
    rewrite extract_linkvertise_link_run.
    by destruct (safe_request max_retries url true w) as [o w'].
  - right. by exists false.
  - right. exists true. unfold bind, ret.
    by destruct (safe_request max_retries url true w) as [[o|e] w'].
  - by left.
Qed.

(** X20.  Resolving one URL with the shipped solver reads the clock twice,
    makes at most [max_retries] exchanges and sleeps at most
    [2^(max_retries-1) - 1] seconds in all, whatever the network does. *)
Theorem solve_single_cost (max_retries : Z) (url : text) (w : World) :
  let w' := (shipped_solve_single max_retries url w).2 in
  reads w' = S (S (reads w)) /\
  (gets w <= gets w' <= gets w + Z.to_nat max_retries)%nat /\
  0 <= total_sleep (trace w') - total_sleep (trace w)
    <= 2 ^ Z.of_nat (Z.to_nat max_retries - 1) - 1.
Proof.
  cbn zeta. unfold shipped_solve_single. rewrite solve_single_run. cbn zeta.
  pose proof (shipped_dispatch_world max_retries (detect_service url) url (tick w)) as Hw.
  cbn zeta in Hw.
  destruct (dispatch _ _ _ (detect_service url) url (tick w)) as [o w2].
  simpl in *.
  assert (0 < 2 ^ Z.of_nat (Z.to_nat max_retries - 1)) by (apply Z.pow_pos_nonneg; lia).
  destruct Hw as [->|[allow_redirects ->]]; [simpl; lia|].
  destruct (safe_request_cost max_retries url allow_redirects (tick w))
    as (j & new & Hj & Hg & Ht & _ & Hr & _ & Hb).
  cbn zeta in *. rewrite Hr, Hg, Ht, total_sleep_app. simpl. lia.
Qed.

Example solve_single_cost_dead_world :
  let w' := (shipped_solve_single 3 (str "https://adf.ly/1/x") dead_world).2 in
  gets w' = 3%nat /\ total_sleep (trace w') = 3 /\ reads w' = 2%nat.
Proof. by vm_compute. Qed.

(** ** The matcher and the language of a pattern *)

Section MatcherLanguage.
Context {A : Type}.
Implicit Types (k : text -> option A) (s m : text) (r : regex).

Lemma exec_star ic a s k : exec ic (Star a) s k = star_run ic a k (length s) s.
Proof. reflexivity. Qed.

(** A match consumes a prefix in the language and continues on the rest. *)
Lemma exec_sound ic r : forall s k x,
  exec ic r s k = Some x ->
  exists m s', s = m ++ s' /\ lang ic r m /\ k s' = Some x.
Proof.
  induction r as [|cs|r1 IH1 r2 IH2|r1 IH1 r2 IH2|r IH]; intros s k x H.
  - exists [], s. split; [done|]. split; [constructor|done].
  - simpl in H. destruct s as [|c s]; [done|].
    destruct (cset_mem ic cs c) eqn:E; [|done].
    exists [c], s. split; [done|]. split; [by constructor|done].
  - simpl in H. apply IH1 in H as (m1 & s1 & -> & L1 & H).
    apply IH2 in H as (m2 & s2 & -> & L2 & H).
    exists (m1 ++ m2), s2. rewrite <-(assoc_L (++)).
    split; [done|]. split; [by constructor|done].
  - simpl in H. apply or_else_Some in H as [H|H].
    + apply IH1 in H as (m & s' & -> & L & H). exists m, s'.
      split; [done|]. split; [by apply lang_alt_l|done].
    + apply IH2 in H as (m & s' & -> & L & H). exists m, s'.
      split; [done|]. split; [by apply lang_alt_r|done].
  - rewrite exec_star in H. revert H. generalize (length s). intros fuel.
    revert s. induction fuel as [|fuel IHf]; intros s H; simpl in H.
    + exists [], s. split; [done|]. split; [constructor|done].
    + apply or_else_Some in H as [H|H].
      * apply IH in H as (m1 & s1 & -> & L1 & H).
        destruct (length s1 <? length (m1 ++ s1))%nat; [|done].
        apply IHf in H as (m2 & s2 & -> & L2 & H).
        exists (m1 ++ m2), s2. rewrite <-(assoc_L (++)).
        split; [done|]. split; [by constructor|done].
      * exists [], s. split; [done|]. split; [constructor|done].
Qed.

Lemma exec_ext ic r : forall s k1 k2,
  (forall s', k1 s' = k2 s') -> exec ic r s k1 = exec ic r s k2.
Proof.
  induction r as [|cs|r1 IH1 r2 IH2|r1 IH1 r2 IH2|r IH]; intros s k1 k2 Hk.
  - apply Hk.
  - simpl. destruct s as [|c s]; [done|]. destruct (cset_mem ic cs c); [apply Hk|done].
  - simpl. apply IH1. intros s'. by apply IH2.
  - simpl. by rewrite (IH1 s k1 k2 Hk), (IH2 s k1 k2 Hk).
  - rewrite !exec_star. generalize (length s). intros fuel. revert s.
    induction fuel as [|fuel IHf]; intros s; [apply Hk|].
    simpl. rewrite Hk. f_equal. apply IH. intros s'.
    destruct (length s' <? length s)%nat; [apply IHf|done].
Qed.

Lemma exec_none ic r : forall s, exec ic r s (fun _ => @None A) = None.
Proof.
  induction r as [|cs|r1 IH1 r2 IH2|r1 IH1 r2 IH2|r IH]; intros s.
  - done.
  - simpl. destruct s as [|c s]; [done|]. by destruct (cset_mem ic cs c).
  - simpl. trans (exec ic r1 s (fun _ => @None A)); [|apply IH1].
    apply exec_ext. intros s'. apply IH2.
  - simpl. by rewrite IH1, IH2.
  - rewrite exec_star. generalize (length s). intros fuel. revert s.
    induction fuel as [|fuel IHf]; intros s; [done|].
    simpl. rewrite (exec_ext ic r s _ (fun _ => None)); [by rewrite IH|].
    intros s'. destruct (length s' <? length s)%nat; [apply IHf|done].
Qed.

(** The loop needs no more fuel than the length of the text. *)
Lemma star_run_fuel ic a k : forall n1 n2 s,
  (length s <= n1)%nat -> (length s <= n2)%nat ->
  star_run ic a k n1 s = star_run ic a k n2 s.
Proof.
  assert (forall n s, s = [] -> star_run ic a k n s = k s) as Hnil.
  { intros n s ->. destruct n as [|n]; [done|]. simpl.
    trans (or_else (exec ic a [] (fun _ => @None A)) (k [])); [|by rewrite exec_none].
    reflexivity. }
  induction n1 as [|n1 IH]; intros n2 s H1 H2.
  - assert (s = []) as -> by (destruct s; [done|simpl in H1; lia]).
    by rewrite !Hnil.
  - destruct n2 as [|n2].
    + assert (s = []) as -> by (destruct s; [done|simpl in H2; lia]).
      by rewrite !Hnil.
    + simpl. f_equal. apply exec_ext. intros s'.
      destruct (length s' <? length s)%nat eqn:E; [|done].
      apply Nat.ltb_lt in E. apply IH; lia.
Qed.

Lemma or_else_is_Some_l (x y : option A) : is_Some x -> is_Some (or_else x y).
Proof. by intros [? ->]. Qed.

Lemma or_else_is_Some_r (x y : option A) : is_Some y -> is_Some (or_else x y).
Proof. destruct x; simpl; eauto. Qed.

(** A text with a prefix in the language is matched, if the continuation
    accepts what follows. *)
Lemma exec_complete ic r m :
  lang ic r m ->
  forall s' k, is_Some (k s') -> is_Some (exec ic r (m ++ s') k).
Proof.
  induction 1 as [|cs x Hx|a b m1 m2 _ IH1 _ IH2|a b m _ IH|a b m _ IH
                 |a|a m1 m2 _ IH1 _ IH2]; intros s' k Hk.
  - done.
  - simpl. by rewrite Hx.
  - simpl. rewrite <-(assoc_L (++)). apply IH1. by apply IH2.
  - simpl. apply or_else_is_Some_l. by apply IH.
  - simpl. apply or_else_is_Some_r. by apply IH.
  - rewrite exec_star. simpl. destruct (length s'); [done|].
    simpl. by apply or_else_is_Some_r.
  - destruct m1 as [|c m1]; [by apply IH2|].
    rewrite exec_star, <-(assoc_L (++)). cbn [app length star_run].
    apply or_else_is_Some_l.
    change (c :: m1 ++ m2 ++ s') with ((c :: m1) ++ m2 ++ s'). apply IH1.
    rewrite (proj2 (Nat.ltb_lt _ _)) by (rewrite !length_app; simpl; lia).
    specialize (IH2 s' k Hk). rewrite exec_star in IH2.
    rewrite (star_run_fuel ic a k _ (length (m2 ++ s'))); [done| |done].
    rewrite !length_app. lia.
Qed.
End MatcherLanguage.

(** [re.match] succeeds exactly on the texts that start with a member of the
    language. *)
Lemma matches_lang ic r s :
  matches ic r s = true <-> exists m s', s = m ++ s' /\ lang ic r m.
Proof.
  unfold matches, re_match. rewrite bool_decide_eq_true. split.
  - intros [x H]. apply exec_sound in H as (m & s' & -> & L & _). eauto.
  - intros (m & s' & -> & L). by apply exec_complete.
Qed.

(** ** What a captured group looks like *)

(** The text of group 1 is in the language of the group. *)
Lemma match_group1_lang ic p s g :
  match_group1 ic p s = Some g -> lang ic (g_grp p) g.
Proof.
  unfold match_group1. intros H.
  apply exec_sound in H as (m1 & s1 & -> & _ & H).
  apply exec_sound in H as (m2 & s2 & -> & L & H).
  apply exec_sound in H as (m3 & s3 & -> & _ & [= <-]).
  rewrite length_app, Nat.add_sub, take_app_length. done.
Qed.

Lemma search_group1_lang ic p s g :
  search_group1 ic p s = Some g -> lang ic (g_grp p) g.
Proof.
  induction s as [|x s IH]; simpl.
  - destruct (match_group1 ic p []) eqn:E; [|done].
    intros [= ->]. by eapply match_group1_lang.
  - destruct (match_group1 ic p (x :: s)) eqn:E; [|done].
    intros [= ->]. by eapply match_group1_lang.
Qed.

Lemma lang_star_chr ic cs m :
  lang ic (Star (Chr cs)) m -> Forall (fun x => cset_mem ic cs x = true) m.
Proof.
  remember (Star (Chr cs)) as r eqn:Hr. induction 1; try done.
  injection Hr as ->. inversion H; subst. constructor; [done|]. by apply IHlang2.
Qed.

Lemma lang_plus_chr ic cs m :
  lang ic (Plus (Chr cs)) m -> m <> [] /\ Forall (fun x => cset_mem ic cs x = true) m.
Proof.
  unfold Plus. inversion 1 as [| |a b m1 m2 L1 L2| | | |]; subst.
  inversion L1; subst. apply lang_star_chr in L2. split; [done|by constructor].
Qed.

Lemma lang_lit_then ic w r m :
  lang ic (lit_then w r) m ->
  exists m1 m2, m = m1 ++ m2 /\
    Forall2 (fun c x => cset_mem ic (CLit c) x = true) w m1 /\ lang ic r m2.
Proof.
  revert m. induction w as [|c w IH]; intros m L; simpl in L.
  - exists [], m. split; [done|]. split; [constructor|done].
  - inversion L as [| |a b m1 m2 L1 L2| | | |]; subst.
    inversion L1; subst. apply IH in L2 as (m1' & m2' & -> & F & L2).
    exists (x :: m1'), m2'. split; [done|]. split; [by constructor|done].
Qed.

Lemma literal_exact w m :
  Forall2 (fun c x => cset_mem false (CLit c) x = true) w m -> m = w.
Proof.
  induction 1 as [|c x w m Hx _ IH]; [done|].
  simpl in Hx. apply bool_decide_eq_true in Hx. by subst.
Qed.

Lemma lang_opt_lit ic c r m :
  lang ic (Seq (Opt (Chr (CLit c))) r) m ->
  (exists x m', m = x :: m' /\ cset_mem ic (CLit c) x = true /\ lang ic r m') \/
  lang ic r m.
Proof.
  inversion 1 as [| |a b m1 m2 L1 L2| | | |]; subst.
  inversion L1 as [| | |a b m L1'|a b m L1'| |]; subst.
  - inversion L1'; subst. left. eauto.
  - inversion L1'; subst. by right.
Qed.

(** A member of the language of the URL pattern. *)
Lemma url_pattern_lang u :
  lang false (g_grp url_pattern) u ->
  exists scheme rest,
    (scheme = str "http://" \/ scheme = str "https://") /\
    u = scheme ++ rest /\ rest <> [] /\ Forall url_char rest.
Proof.
  unfold url_pattern. cbn [g_grp]. intros L.
  apply lang_lit_then in L as (m1 & m2 & -> & F1 & L).
  apply literal_exact in F1 as ->.
  assert (forall m, lang false
            (lit_then (str "://")
               (Plus (Chr (CNot (CUnion CSpace
                  (CUnion (CLit "<") (CUnion (CLit ">") quote))))))) m ->
          exists rest, m = str "://" ++ rest /\ rest <> [] /\ Forall url_char rest)
    as Htail.
  { intros m Lm. apply lang_lit_then in Lm as (m5 & m6 & -> & F5 & L6).
    apply literal_exact in F5 as ->.
    apply lang_plus_chr in L6 as [Hne Hall].
    exists m6. split; [done|]. split; [done|].
    eapply Forall_impl; [exact Hall|]. intros c Hc. simpl in Hc.
    apply negb_true_iff in Hc.
    repeat (apply orb_false_iff in Hc as [? Hc]).
    unfold url_char.
    repeat match goal with
           | H : bool_decide _ = false |- _ => apply bool_decide_eq_false in H
           end.
    done. }
  apply lang_opt_lit in L as [(x & m' & -> & Hx & L)|L].
  - simpl in Hx. apply bool_decide_eq_true in Hx as ->.
    apply Htail in L as (rest & -> & Hne & Hall).
    exists (str "https://"), rest. split; [by right|]. done.
  - apply Htail in L as (rest & -> & Hne & Hall).
    exists (str "http://"), rest. split; [by left|]. done.
Qed.

(** X11.  A URL returned by [extract_adfly_link] is [http://] or
    [https://] (in lower case) followed by at least one character, none of
    which is white space, an angle bracket or a quote mark. *)
Theorem adfly_candidate_is_absolute_url (sr : text -> bool -> M (option Response))
    (url : text) (w : World) (u : text) (w' : World) :
  extract_adfly_link sr url w = (inl (Some u), w') ->
  exists scheme rest,
    (scheme = str "http://" \/ scheme = str "https://") /\
    u = scheme ++ rest /\ rest <> [] /\ Forall url_char rest.
Proof.
  unfold extract_adfly_link, try_except, bind, ret.
  destruct (sr url false w) as [[[response|]|e] w1]; [|done..].
  intros Heq.
  assert (scan_patterns ysmm_patterns (r_text response) = Some u) as Hs by congruence.
  clear Heq. apply url_pattern_lang.
  revert Hs. generalize ysmm_patterns. intros patterns.
  induction patterns as [|pattern patterns IH]; simpl; [done|].
  destruct (search_group1 false pattern (r_text response)) as [ysmm|]; [|done].
  destruct (search_group1 false url_pattern (descramble ysmm)) as [u'|] eqn:E; [|done].
  intros [= ->]. exact (search_group1_lang _ _ _ _ E).
Qed.

Lemma adfly_candidate_is_absolute_url_witness :
  exists scheme rest,
    (scheme = str "http://" \/ scheme = str "https://") /\
    str "http://a.bc/" = scheme ++ rest /\ rest <> [] /\ Forall url_char rest.
Proof.
  pose (url := str "https://adf.ly/1/x").
  pose (html := str "<script>var ysmm = '//a:.pbtct/h';</script>").
  pose (w := mkWorld (fun _ _ _ => inl (mkResponse url html)) (fun _ => 0%nat)
                     (fun k => Z.of_nat k) 0 0 0 []).
  apply (adfly_candidate_is_absolute_url (safe_request 3) url w (str "http://a.bc/")
           (extract_adfly_link (safe_request 3) url w).2).
  by vm_compute.
Defined.

(** ** A page without the token *)

Lemma occurs_spec needle hay :
  occurs needle hay = true <-> exists pre post, hay = pre ++ needle ++ post.
Proof.
  induction hay as [|x hay IH]; simpl.
  - rewrite orb_false_r, bool_decide_eq_true. split.
    + intros [post ->]. by exists [], post.
    + intros (pre & post & H). symmetry in H.
      apply app_eq_nil in H as [-> H]. apply app_eq_nil in H as [-> ->].
      by exists [].
  - rewrite orb_true_iff, bool_decide_eq_true, IH. split.
    + intros [[post ->]|(pre & post & ->)]; [by exists [], post|].
      by exists (x :: pre), post.
    + intros (pre & post & H). destruct pre as [|y pre]; simpl in H.
      * left. by exists post.
      * injection H as -> ->. right. by exists pre, post.
Qed.

Lemma search_group1_at ic p s g :
  search_group1 ic p s = Some g ->
  exists pre s', s = pre ++ s' /\ match_group1 ic p s' = Some g.
Proof.
  induction s as [|x s IH]; simpl.
  - destruct (match_group1 ic p []) eqn:E; [|done].
    intros [= ->]. by exists [], [].
  - destruct (match_group1 ic p (x :: s)) eqn:E.
    + intros [= ->]. by exists [], (x :: s).
    + intros (pre & s' & -> & H)%IH. by exists (x :: pre), s'.
Qed.

(** Whatever [ysmm_tail] matches starts with the name of the variable. *)
Lemma ysmm_tail_lang m : lang false ysmm_tail m -> exists rest, m = str "ysmm" ++ rest.
Proof.
  unfold ysmm_tail. intros L.
  apply lang_lit_then in L as (m1 & m2 & -> & F & _).
  apply literal_exact in F as ->. by exists m2.
Qed.

Lemma ysmm_pattern_needs_name pattern html g :
  pattern ∈ ysmm_patterns ->
  search_group1 false pattern html = Some g -> occurs (str "ysmm") html = true.
Proof.
  intros Hp (pre & s & -> & H)%search_group1_at.
  unfold match_group1 in H. apply exec_sound in H as (m1 & s1 & -> & L & _).
  apply occurs_spec. unfold ysmm_patterns in Hp.
  apply elem_of_cons in Hp as [->|Hp]; [|apply elem_of_cons in Hp as [->|Hp]];
    [| |by apply elem_of_nil in Hp]; cbn [g_pre] in L.
  - apply lang_lit_then in L as (m2 & m3 & -> & F & L).
    inversion L as [| |a b m4 m5 _ L5| | | |]; subst.
    apply ysmm_tail_lang in L5 as [rest ->].
    exists (pre ++ m2 ++ m4), (rest ++ s1). by rewrite <-!(assoc_L (++)).
  - apply ysmm_tail_lang in L as [rest ->].
    exists pre, (rest ++ s1). by rewrite <-!(assoc_L (++)).
Qed.

(** X21.  A page in which the text [ysmm] does not occur gives no URL:
    [extract_adfly_link] returns [None] after its one fetch. *)
Theorem adfly_needs_the_token (sr : text -> bool -> M (option Response))
    (url : text) (w : World) (response : Response) (w' : World) :
  sr url false w = (inl (Some response), w') ->
  occurs (str "ysmm") (r_text response) = false ->
  extract_adfly_link sr url w = (inl None, w').
Proof.
  intros Hsr Hno. unfold extract_adfly_link, try_except, bind, ret. rewrite Hsr.
  f_equal. f_equal.
  assert (forall pattern g, pattern ∈ ysmm_patterns ->
            search_group1 false pattern (r_text response) <> Some g) as Hnone.
  { intros pattern g Hp Hg.
    rewrite (ysmm_pattern_needs_name pattern _ g Hp Hg) in Hno. done. }
  revert Hnone. generalize ysmm_patterns. intros patterns Hnone.
  induction patterns as [|pattern patterns IH]; [done|].
  cbn [scan_patterns].
  destruct (search_group1 false pattern (r_text response)) as [g|] eqn:E.
  - destruct (Hnone pattern g); [left|done].
  - apply IH. intros p g Hp. apply Hnone. by right.
Qed.

Lemma adfly_needs_the_token_witness :
  (shipped_extract_adfly_link 3 (str "https://adf.ly/1/x") echo_world).1 = inl None.
Proof.
  unfold shipped_extract_adfly_link.
  rewrite (adfly_needs_the_token (safe_request 3) (str "https://adf.ly/1/x") echo_world
             (mkResponse (str "https://adf.ly/1/x") (str "<html></html>"))
             (safe_request 3 (str "https://adf.ly/1/x") false echo_world).2).
  - reflexivity.
  - by vm_compute.
  - by vm_compute.
Defined.

(** ** More on the classifier *)

(** The 256 characters. *)
Lemma ascii_enum (x : ascii) : In x (map ascii_of_nat (seq 0 256)).
Proof.
  apply in_map_iff. exists (nat_of_ascii x). split; [apply ascii_nat_embedding|].
  apply in_seq. pose proof (nat_ascii_bounded x). lia.
Qed.

(** Two characters with the same lower case are the same or the two cases
    of one letter, and no character class tells them apart. *)
Lemma lower_eq_cases x y :
  lower x = lower y ->
  (y = x \/ y = swapcase x) /\
  is_digit x = is_digit y /\ is_space x = is_space y /\
  bool_decide (x = "010"%char) = bool_decide (y = "010"%char).
Proof.
  assert (forallb (fun x => forallb (fun y =>
            implb (bool_decide (lower x = lower y))
              ((bool_decide (y = x) || bool_decide (y = swapcase x))
               && bool_decide (is_digit x = is_digit y)
               && bool_decide (is_space x = is_space y)
               && bool_decide (bool_decide (x = "010"%char)
                               = bool_decide (y = "010"%char))))
            (map ascii_of_nat (seq 0 256))) (map ascii_of_nat (seq 0 256)) = true)
    as Hall by (vm_compute; reflexivity).
  intros Hl. rewrite forallb_forall in Hall.
  specialize (Hall x (ascii_enum x)). rewrite forallb_forall in Hall.
  specialize (Hall y (ascii_enum y)).
  rewrite (bool_decide_eq_true_2 _ Hl) in Hall. simpl in Hall.
  repeat (apply andb_true_iff in Hall as [Hall ?]).
  apply orb_true_iff in Hall.
  repeat match goal with
         | H : bool_decide _ = true |- _ => apply bool_decide_eq_true in H
         end.
  split; [|done].
  destruct Hall as [H'|H']; apply bool_decide_eq_true in H'; eauto.
Qed.

Lemma swapcase_involutive x : swapcase (swapcase x) = x.
Proof.
  assert (forallb (fun x => bool_decide (swapcase (swapcase x) = x))
            (map ascii_of_nat (seq 0 256)) = true) as Hall by (vm_compute; reflexivity).
  rewrite forallb_forall in Hall.
  apply (proj1 (bool_decide_eq_true _)), Hall, ascii_enum.
Qed.

Lemma cset_mem_lower cs x y :
  lower x = lower y -> cset_mem true cs x = cset_mem true cs y.
Proof.
  intros Hl. destruct (lower_eq_cases x y Hl) as (Hc & Hd & Hs & Hn).
  induction cs as [c| | | |lo hi|a IHa b IHb|a IHa]; cbn [cset_mem].
  - by rewrite Hl.
  - done.
  - done.
  - by rewrite Hn.
  - destruct Hc as [->| ->]; [done|].
    rewrite swapcase_involutive. cbn [andb]. apply orb_comm.
  - by rewrite IHa, IHb.
  - by rewrite IHa.
Qed.

(** With IGNORECASE the language of a pattern is closed under changes of
    letter case. *)
Lemma lang_lower r m1 :
  lang true r m1 -> forall m2, lower <$> m1 = lower <$> m2 -> lang true r m2.
Proof.
  induction 1 as [|cs x Hx|a b m1 m1' _ IH1 _ IH2|a b m _ IH|a b m _ IH
                 |a|a m1 m1' _ IH1 _ IH2]; intros m2 Hm.
  - destruct m2; [constructor|done].
  - destruct m2 as [|y [|? ?]]; [done| |done].
    injection Hm as Hl. constructor. by rewrite <-(cset_mem_lower cs x y Hl).
  - rewrite fmap_app in Hm. rewrite <-(take_drop (length m1) m2) in Hm |- *.
    rewrite fmap_app in Hm. apply app_inj_1 in Hm as [H1 H2].
    + constructor; [by apply IH1|by apply IH2].
    + apply (f_equal length) in Hm.
      rewrite !length_app, !length_fmap, length_take, length_drop in *. lia.
  - apply lang_alt_l. by apply IH.
  - apply lang_alt_r. by apply IH.
  - destruct m2; [constructor|done].
  - rewrite fmap_app in Hm. rewrite <-(take_drop (length m1) m2) in Hm |- *.
    rewrite fmap_app in Hm. apply app_inj_1 in Hm as [H1 H2].
    + constructor; [by apply IH1|by apply IH2].
    + apply (f_equal length) in Hm.
      rewrite !length_app, !length_fmap, length_take, length_drop in *. lia.
Qed.

Lemma matches_lower_1 r u1 u2 :
  lower <$> u1 = lower <$> u2 -> matches true r u1 = true -> matches true r u2 = true.
Proof.
  intros Hu. rewrite !matches_lang. intros (m & s' & -> & L).
  exists (take (length m) u2), (drop (length m) u2).
  split; [by rewrite take_drop|].
  apply (lang_lower r m L).
  rewrite fmap_app in Hu. rewrite <-(take_drop (length m) u2) in Hu at 1.
  rewrite fmap_app in Hu. apply app_inj_1 in Hu as [H1 _]; [done|].
  apply (f_equal length) in Hu.
  rewrite !length_app, !length_fmap, length_take, length_drop in *. lia.
Qed.

Lemma matches_lower r u1 u2 :
  lower <$> u1 = lower <$> u2 -> matches true r u1 = matches true r u2.
Proof.
  intros Hu. destruct (matches true r u1) eqn:E1.
  - symmetry. by eapply matches_lower_1.
  - destruct (matches true r u2) eqn:E2; [|done].
    rewrite (matches_lower_1 r u2 u1) in E1; done.
Qed.

(** X12.  The classification ignores letter case: two URLs that differ
    only in the case of their ASCII letters get the same service. *)
Theorem detect_service_ignores_case (u1 u2 : text) :
  lower <$> u1 = lower <$> u2 -> detect_service u1 = detect_service u2.
Proof.
  intros Hu. unfold detect_service. generalize service_patterns. intros table.
  induction table as [|[svc patterns] table IH]; simpl; [done|].
  assert (first_match patterns u1 = first_match patterns u2) as ->.
  { induction patterns as [|p patterns IHp]; simpl; [done|].
    by rewrite (matches_lower p u1 u2 Hu), IHp. }
  by rewrite IH.
Qed.

Lemma detect_service_ignores_case_witness :
  detect_service (str "HTTPS://WWW.ADF.LY/12/Page") = detect_service (str "https://www.adf.ly/12/page").
Proof.
  apply (detect_service_ignores_case (str "HTTPS://WWW.ADF.LY/12/Page")
           (str "https://www.adf.ly/12/page")).
  by vm_compute.
Defined.



(** X14.  The patterns are anchored at the start only: text appended to a
    classified URL never changes its service. *)
Theorem trailing_text_keeps_service (url t : text) :
  detect_service url <> unknown ->
  detect_service (url ++ t) = detect_service url.
Proof.
  intros Hk. unfold detect_service in Hk.
  destruct (detect_in_cases service_patterns url)
    as [[Hu _]|(before & svc & patterns & after & E & Hd & Hm & _)]; [done|].
  unfold detect_service at 2. rewrite Hd.
  apply first_match_true in Hm as (p & Hp & Hm).
  apply (detect_service_any_pattern _ svc patterns p); [|done|].
  - rewrite E. apply elem_of_app. right. left.
  - apply matches_lang in Hm as (m & s' & -> & L). apply matches_lang.
    exists m, (s' ++ t). by rewrite <-(assoc_L (++)).
Qed.

Lemma trailing_text_keeps_service_witness :
  detect_service (str "https://shortconnect.com/abc" ++ str "?!<script>")
  = detect_service (str "https://shortconnect.com/abc").
Proof.
  apply (trailing_text_keeps_service (str "https://shortconnect.com/abc") (str "?!<script>")).
  by vm_compute.
Defined.

(** ** The descramble loop in closed form *)

Lemma descramble_loop_closed (ysmm decoded : text) (n i : nat) :
  (i + n <= length ysmm)%nat ->
  foldl (descramble_step ysmm) decoded (seq i n)
  = reverse (alternate (Nat.odd i) (take n (drop i ysmm)))
    ++ decoded ++ alternate (Nat.even i) (take n (drop i ysmm)).
Proof.
  revert decoded i. induction n as [|n IH]; intros decoded i Hle.
  - rewrite take_0. simpl. by rewrite (right_id_L [] (++)).
  - destruct (lookup_lt_is_Some_2 ysmm i) as [c Hc]; [lia|].
    rewrite (drop_S _ _ _ Hc). cbn [seq foldl take alternate].
    rewrite IH by lia. unfold descramble_step. rewrite Hc.
    rewrite Nat.odd_succ, Nat.even_succ, <-Nat.negb_even.
    destruct (Nat.even i); cbn [negb].
    + by rewrite <-(assoc_L (++)).
    + rewrite reverse_cons, <-!(assoc_L (++)). reflexivity.
Qed.

(** The decoded text is the odd-indexed characters of the token in reverse
    order, followed by the even-indexed ones in order. *)
Lemma descramble_closed (ysmm : text) :
  descramble ysmm = reverse (alternate false ysmm) ++ alternate true ysmm.
Proof.
  unfold descramble. rewrite descramble_loop_closed by (simpl; lia).
  by rewrite drop_0, firstn_all.
Qed.

Lemma alternate_lookup {A} (l : list A) : forall now k,
  alternate now l !! k = l !! (2 * k + (if now then 0 else 1))%nat.
Proof.
  induction l as [|x l IH]; intros now k; [by destruct now|].
  destruct now; cbn [alternate negb].
  - destruct k as [|k]; [done|]. cbn [lookup list_lookup]. rewrite IH.
    replace (2 * S k + 0)%nat with (S (2 * k + 1)) by lia. done.
  - rewrite IH. replace (2 * k + 1)%nat with (S (2 * k + 0)) by lia. done.
Qed.

Lemma alternate_length {A} (l : list A) : forall now,
  length (alternate now l) = ((length l + (if now then 1 else 0)) / 2)%nat.
Proof.
  induction l as [|x l IH]; intros now; [by destruct now|].
  destruct now; cbn [alternate negb length]; rewrite IH.
  - replace (S (length l) + 1)%nat with (length l + 0 + 1 * 2)%nat by lia.
    rewrite Nat.div_add by lia. lia.
  - f_equal. lia.
Qed.

(** X15.  Where the decode loop puts each character: with [h] the number
    of odd indices of the token, the character at an even index [i] lands at
    position [h + i/2] and the one at an odd index [i] at [h - 1 - i/2]. *)
Theorem descramble_positions (ysmm : text) (i : nat) (c : ascii) :
  ysmm !! i = Some c ->
  descramble ysmm !! (if Nat.even i then length ysmm / 2 + i / 2
                      else length ysmm / 2 - 1 - i / 2)%nat = Some c.
Proof.
  intros Hi. pose proof (lookup_lt_Some _ _ _ Hi) as Hlt.
  rewrite descramble_closed.
  assert (length (reverse (alternate false ysmm)) = (length ysmm / 2)%nat) as Hlen.
  { rewrite length_reverse, alternate_length. f_equal. lia. }
  destruct (Nat.even i) eqn:Ev.
  - apply Nat.even_spec in Ev as [k ->].
    rewrite lookup_app_r by lia. rewrite Hlen.
    replace (length ysmm / 2 + 2 * k / 2 - length ysmm / 2)%nat with k
      by (rewrite (Nat.mul_comm 2 k), Nat.div_mul by lia; lia).
    rewrite alternate_lookup. by rewrite Nat.add_0_r.
  - assert (Nat.odd i = true) as Od by (by rewrite <-Nat.negb_even, Ev).
    apply Nat.odd_spec in Od as [k ->].
    assert ((2 * k + 1) / 2 = k)%nat as ->.
    { rewrite (Nat.mul_comm 2 k), Nat.div_add_l by lia. simpl. lia. }
    assert (k < length ysmm / 2)%nat as Hk.
    { apply Nat.div_le_lower_bound; lia. }
    rewrite lookup_app_l by lia.
    rewrite reverse_lookup by (rewrite <-Hlen, length_reverse in *; lia).
    rewrite <-(length_reverse (alternate false ysmm)), Hlen.
    replace (length ysmm / 2 - S (length ysmm / 2 - 1 - k))%nat with k by lia.
    by rewrite alternate_lookup.
Qed.

Lemma descramble_positions_witness :
  descramble (str "//a:.pbtct/h") !! (12 / 2 - 1 - 11 / 2)%nat = Some "h"%char.
Proof.
  apply (descramble_positions (str "//a:.pbtct/h") 11 "h"). reflexivity.
Defined.

Lemma alternate_inj {A} (l1 : list A) : forall l2 now,
  alternate now l1 = alternate now l2 ->
  alternate (negb now) l1 = alternate (negb now) l2 -> l1 = l2.
Proof.
  induction l1 as [|x l1 IH]; intros l2 now H1 H2.
  - destruct l2 as [|y l2]; [done|]. by destruct now.
  - destruct l2 as [|y l2]; [by destruct now|].
    destruct now; cbn [alternate negb] in *.
    + injection H1 as -> H1. f_equal. by apply (IH l2 false).
    + injection H2 as -> H2. f_equal. by apply (IH l2 true).
Qed.

(** X16.  The decode loop loses nothing: two tokens with the same decoded
    text are the same token. *)
Theorem descramble_injective (a b : text) :
  descramble a = descramble b -> a = b.
Proof.
  intros H. pose proof (f_equal length H) as Hlen.
  rewrite !descramble_length in Hlen. rewrite !descramble_closed in H.
  apply app_inj_1 in H as [H1 H2].
  - apply (alternate_inj a b true); [done|].
    apply (inj reverse) in H1. done.
  - by rewrite !length_reverse, !alternate_length, Hlen.
Qed.

Lemma descramble_injective_witness : str "dbac" = descramble (str "abcd").
Proof.
  apply (descramble_injective (str "dbac") (descramble (str "abcd"))).
  reflexivity.
Defined.

(** ** Exporting *)

Section ExportFacts.
Variable json_dumps : json -> Z -> text.
Variable show_float format_2f : Time -> text.
Variable mark_solved mark_failed : text.

Lemma text_lines_raises i results :
  (exists e, text_lines format_2f mark_solved mark_failed i results = inr e) <->
  exists r, r ∈ results /\ response_time r = None.
Proof.
  revert i. induction results as [|result rest IH]; intros i; simpl.
  - split; [by intros [? ?]|]. intros (r & Hr & _). by apply elem_of_nil in Hr.
  - destruct (response_time result) as [t|] eqn:Et.
    + specialize (IH (S i)).
      destruct (text_lines format_2f mark_solved mark_failed (S i) rest) as [output|e].
      * split; [by intros [? ?]|]. intros (r & Hr & Hn).
        apply elem_of_cons in Hr as [->|Hr]; [congruence|].
        destruct (proj2 IH) as [? ?]; [by exists r|done].
      * split; [|by eauto]. intros _.
        destruct (proj1 IH) as (r & Hr & Hn); [by eauto|].
        exists r. split; [by right|done].
    + split; [|by eauto]. intros _. exists result. split; [left|done].
Qed.

Lemma text_lines_exn i results e :
  text_lines format_2f mark_solved mark_failed i results = inr e -> e = format_none.
Proof.
  revert i. induction results as [|result rest IH]; intros i; simpl; [done|].
  destruct (response_time result) as [t|]; [|by intros [= <-]].
  specialize (IH (S i)).
  destruct (text_lines format_2f mark_solved mark_failed (S i) rest); [done|].
  intros [= <-]. by apply IH.
Qed.

Lemma export_results_text_raises results :
  (exists r, r ∈ results /\ response_time r = None) ->
  export_results_text format_2f mark_solved mark_failed results = inr format_none.
Proof.
  intros H. apply (text_lines_raises 1) in H as [e He].
  unfold export_results_text. rewrite He. f_equal. by eapply text_lines_exn.
Qed.

Lemma export_results_text_returns results :
  (forall r, r ∈ results -> is_Some (response_time r)) ->
  exists out, export_results_text format_2f mark_solved mark_failed results = inl out.
Proof.
  intros H. unfold export_results_text.
  destruct (text_lines format_2f mark_solved mark_failed 1 results) as [output|e] eqn:E;
    [by eauto|].
  destruct (proj1 (text_lines_raises 1 results)) as (r & Hr & Hn); [by eauto|].
  destruct (H r Hr) as [t Ht]. congruence.
Qed.

Lemma export_results_json_raises results :
  export_results_json json_dumps results
  = inr (NameError (str "name 'json' is not defined")).
Proof.
  unfold export_results_json.
  by assert (bool_decide ("json"%string ∈ module_globals) = false) as -> by (by vm_compute).
Qed.
End ExportFacts.

(** X17.  When [export_results] raises, and what: always for the format
    ['json'] (a [NameError]), never for ['csv'], and for any other format,
    which is treated as ['text'], exactly when some result has no
    [response_time] (the [TypeError] of formatting [None]). *)
Theorem export_results_raises_iff (json_dumps : json -> Z -> text)
    (show_float format_2f : Time -> text) (mark_solved mark_failed : text)
    (results : list SolveResult) (format : text) (e : exn) :
  export_results json_dumps show_float format_2f mark_solved mark_failed results format
    = inr e <->
  (format = str "json" /\ e = NameError (str "name 'json' is not defined")) \/
  (format <> str "json" /\ format <> str "csv" /\ e = format_none /\
   exists r, r ∈ results /\ response_time r = None).
Proof.
  unfold export_results. repeat case_bool_decide.
  - rewrite export_results_json_raises. split.
    + intros [= <-]. by left.
    + intros [[_ ->]|[? _]]; done.
  - split; [done|]. intros [[? _]|(_ & ? & _)]; done.
  - split.
    + intros He. right. split; [done|]. split; [done|].
      unfold export_results_text in He.
      destruct (text_lines format_2f mark_solved mark_failed 1 results) as [?|e'] eqn:E;
        [done|].
      injection He as ->. split; [by eapply text_lines_exn|].
      apply (text_lines_raises format_2f mark_solved mark_failed 1). eauto.
    + intros [[? _]|(_ & _ & -> & Hr)]; [done|]. by apply export_results_text_raises.
Qed.

(** Every result of a batch is what the loop collected from one of the
    tasks. *)
Lemma solve_batch_elem (self_solve_single : text -> M SolveResult) urls completion w r :
  r ∈ (solve_batch self_solve_single urls completion w).1 ->
  exists f, f ∈ (run_tasks self_solve_single urls w).1 /\ r = collect_one f.
Proof.
  unfold solve_batch. destruct (run_tasks self_solve_single urls w) as [futures w'].
  simpl. unfold restore_order. rewrite sort_by_perm.
  intros (f & -> & Hf)%list_elem_of_fmap. exists f. split; [|done].
  apply list_elem_of_omap in Hf as (i & _ & Hi). by eapply list_elem_of_lookup_2.
Qed.

Lemma shipped_run_tasks_timed max_retries urls w f :
  f ∈ (run_tasks (shipped_solve_single max_retries) urls w).1 ->
  is_Some (response_time (collect_one f)).
Proof.
  revert w. induction urls as [|url urls IH]; intros w; simpl.
  - intros H. by apply elem_of_nil in H.
  - destruct (shipped_response_time max_retries url w) as (r & w1 & E & Ht).
    rewrite E. specialize (IH w1).
    destruct (run_tasks (shipped_solve_single max_retries) urls w1) as [fs w2].
    simpl in *. intros [->|H]%elem_of_cons; [|by apply IH].
    unfold collect_one. simpl. by rewrite Ht.
Qed.

(** X18.  What the shipped batch returns can always be exported as
    ['csv'] or as text, whatever the network did and in whatever order the
    tasks completed: every one of its results has its time. *)
Theorem shipped_batch_exports (json_dumps : json -> Z -> text)
    (show_float format_2f : Time -> text) (mark_solved mark_failed : text)
    (max_retries : Z) (urls : list text) (completion : list nat) (w : World)
    (format : text) :
  format <> str "json" ->
  exists out,
    export_results json_dumps show_float format_2f mark_solved mark_failed
      (shipped_solve_batch max_retries urls completion w).1 format = inl out.
Proof.
  intros Hj. unfold export_results. rewrite bool_decide_eq_false_2 by done.
  case_bool_decide; [by eauto|].
  apply export_results_text_returns. intros r Hr.
  apply solve_batch_elem in Hr as (f & Hf & ->).
  by eapply shipped_run_tasks_timed.
Qed.

Lemma shipped_batch_exports_witness :
  exists out,
    export_results (fun _ _ => []) (fun _ => str "1.0") (fun _ => str "1.00")
      (str "+") (str "x")
      (shipped_solve_batch 3 [str "https://adf.ly/1/x"; str "https://example.com/a"]
         [1; 0]%nat dead_world).1 (str "text") = inl out.
Proof.
  apply (shipped_batch_exports (fun _ _ => []) (fun _ => str "1.0") (fun _ => str "1.00")
           (str "+") (str "x") 3
           [str "https://adf.ly/1/x"; str "https://example.com/a"] [1; 0]%nat dead_world
           (str "text")).
  by vm_compute.
Defined.

(** X19.  One faulted task spoils the text report of its whole batch: when
    a completed task raised, [export_results] raises on the output of
    [solve_batch] for every format that is treated as text. *)
Theorem faulted_task_breaks_text_export (json_dumps : json -> Z -> text)
    (show_float format_2f : Time -> text) (mark_solved mark_failed : text)
    (self_solve_single : text -> M SolveResult)
    (urls : list text) (completion : list nat) (w : World)
    (i : nat) (url : text) (e : exn) (format : text) :
  (run_tasks self_solve_single urls w).1 !! i = Some (url, inr e) ->
  i ∈ completion ->
  format <> str "json" -> format <> str "csv" ->
  export_results json_dumps show_float format_2f mark_solved mark_failed
    (solve_batch self_solve_single urls completion w).1 format = inr format_none.
Proof.
  intros Hi Hc Hj Hcsv. unfold export_results.
  rewrite !bool_decide_eq_false_2 by done.
  apply export_results_text_raises.
  exists (collect_one (url, inr e)). split; [|done].
  unfold solve_batch. destruct (run_tasks self_solve_single urls w) as [futures w'].
  simpl in *. unfold restore_order. rewrite sort_by_perm.
  apply list_elem_of_fmap. exists (url, inr e). split; [done|].
  apply list_elem_of_omap. by exists i.
Qed.

Lemma faulted_task_breaks_text_export_witness :
  export_results (fun _ _ => []) (fun _ => str "1.0") (fun _ => str "1.00")
    (str "+") (str "x")
    (solve_batch (picky_solve_single 3)
       [str "https://example.com/a"; str "https://bad.example/b"] [1; 0]%nat echo_world).1
    (str "text") = inr format_none.
Proof.
  apply (faulted_task_breaks_text_export (fun _ _ => []) (fun _ => str "1.0")
           (fun _ => str "1.00") (str "+") (str "x") (picky_solve_single 3)
           [str "https://example.com/a"; str "https://bad.example/b"] [1; 0]%nat
           echo_world 1 (str "https://bad.example/b")
           (OtherException (str "worker crashed")) (str "text")).
  - by vm_compute.
  - by apply (bool_decide_unpack _).
  - by apply (bool_decide_unpack _).
  - by apply (bool_decide_unpack _).
Defined.

